(** * Example synthesis of a media type (services/models/MediaType.ts)

    A shallow embedding of [MediaTypeModel]: its constructor, the computed
    [examples] getter and the private [generateExamples], with the theorems
    that settle the specification's claims about them.

    Conventions of the embedding.
    - [undefined] fields and results are [option]s, [None] being [undefined].
    - An object used as a dictionary ([{ [name: string]: ExampleModel }]) is
      the [gmap string _] of its own properties; prototypes are not part of
      the model.
    - A call that may raise returns an [Outcome]; the calls a read makes to
      code outside MediaType.ts are recorded, in order, in a trace.
    - Code MediaType.ts imports (Schema.ts, utils, the openapi-sampler
      package) is gathered in the record [Collaborators], with the one
      conversion of the language that a write of the engine can reach, a
      string to the length of an array; the engine is stated over any of
      them.
    - The sampler is a function of its arguments, and each sample is a value
      of its own: the writes the engine makes into a sample are updates of
      that value.
    - The reactive wrapping of [examples] ([makeObservable], [computed]) is
      left out: a read is one evaluation of the getter. *)

From Stdlib Require Import Ascii.
From stdpp Require Import base strings list gmap fin_maps pretty.

Set Warnings "-register-all,-clear-no-such-hyp".

Open Scope string_scope.
Open Scope list_scope.

(** ** Values *)

(** A sampled value: plain data. An object is the list of its own
    properties, in the order in which they were first written (the order of
    enumeration, which puts index keys first, is not modelled). An array is
    the list of its elements, [None] for a hole, with the named properties
    written to it beside them. Objects and arrays are extensible, their
    properties are writable data properties, and above them are
    [Object.prototype] and [Array.prototype] as the language has them;
    prototypes are not part of a value. Numbers are only passed along. *)
Inductive Json : Type :=
| JUndefined
| JNull
| JBool (b : bool)
| JNum (n : Z)
| JStr (s : string)
| JArr (items : list (option Json)) (own : list (string * Json))
| JObj (props : list (string * Json)).

(** [typeof v === 'object' && v] *)
Definition is_object (v : Json) : bool :=
  match v with
  | JArr _ _ | JObj _ => true
  | _ => false
  end.

(** [if (v)] *)
Definition json_truthy (v : Json) : bool :=
  match v with
  | JUndefined | JNull => false
  | JBool b => b
  | JNum n => negb (bool_decide (n = 0%Z))
  | JStr s => negb (bool_decide (s = ""))
  | JArr _ _ | JObj _ => true
  end.

Fixpoint props_get (ps : list (string * Json)) (k : string) : option Json :=
  match ps with
  | [] => None
  | (k', x) :: r => if decide (k' = k) then Some x else props_get r k
  end.

(** A write keeps the place of a key that exists and appends a new one. *)
Fixpoint props_put (ps : list (string * Json)) (k : string) (x : Json)
  : list (string * Json) :=
  match ps with
  | [] => [(k, x)]
  | (k', y) :: r =>
      if decide (k' = k) then (k, x) :: r else (k', y) :: props_put r k x
  end.

(** The value of a decimal digit. *)
Definition digit_of (c : ascii) : option N :=
  let n := N_of_ascii c in
  if (48 <=? n)%N && (n <=? 57)%N then Some (n - 48)%N else None.

(** The number a string of decimal digits writes, after [acc]. *)
Fixpoint decimal (s : string) (acc : N) : option N :=
  match s with
  | EmptyString => Some acc
  | String c r =>
      match digit_of c with
      | Some d => decimal r (10 * acc + d)%N
      | None => None
      end
  end.

(** The index a property key of an array stands for: the key is the decimal
    numeral, without a leading zero, of a number below 2^32 - 1. *)
Definition array_index (k : string) : option nat :=
  match k with
  | EmptyString => None
  | String "0" EmptyString => Some 0
  | String "0" _ => None
  | _ =>
      match decimal k 0 with
      | Some n => if (n <? 4294967295)%N then Some (N.to_nat n) else None
      | None => None
      end
  end.

(** [v[k]], for a property [v] has of its own: an element or the length of
    an array among them. What [v] inherits is not a sampled value. *)
Definition member (v : Json) (k : string) : option Json :=
  match v with
  | JObj ps => props_get ps k
  | JArr xs own =>
      match array_index k with
      | Some i => mjoin (xs !! i)
      | None =>
          if decide (k = "length") then Some (JNum (Z.of_nat (length xs)))
          else props_get own k
      end
  | _ => None
  end.

(** The own properties after [o[k] = x], where [ps] are the own properties
    that are neither elements nor the length of an array. The key
    [__proto__], when [o] has no property of that name itself, reaches the
    setter of [Object.prototype]: it adds no property (it replaces the
    prototype when [x] is an object or null, and does nothing otherwise).
    Any other key is written as a property of [o]. *)
Definition own_put (ps : list (string * Json)) (k : string) (x : Json)
  : list (string * Json) :=
  match props_get ps k with
  | Some _ => props_put ps k x
  | None => if decide (k = "__proto__") then ps else props_put ps k x
  end.

(** ** Schema models *)

(** The members of [SchemaModel] (Schema.ts) that MediaType.ts and the
    discriminator walks read. *)
Inductive SchemaModel : Type :=
  mkSchemaModel {
    title : string;
    oneOf : option (list SchemaModel);
    discriminatorProp : option string;
    activeOneOf : nat;
    fields : list (string * SchemaModel);
    items : option SchemaModel
  }.

(** What [getSchemaWithActiveDiscriminators] hands to the sampler. *)
Inductive ResolvedSchema : Type :=
  mkResolved (rtitle : string)
             (rfields : list (string * ResolvedSchema))
             (ritems : option ResolvedSchema).

Record OpenAPIParser : Type := {
  spec : Json;
  (** [parser.deref(x).resolved] *)
  deref : Json -> Json
}.

Record RedocNormalizedOptions : Type := {
  opt_onlyRequiredInSamples : bool;
  opt_generatedSamplesMaxDepth : Z
}.

Record OpenAPIMediaType : Type := {
  info_schema : option Json;
  info_example : option Json;
  info_examples : option (gmap string Json);
  info_encoding : option Json
}.

Record SamplerOptions : Type := {
  skipReadOnly : bool;
  skipWriteOnly : bool;
  skipNonRequired : bool;
  maxSampleDepth : Z
}.

(** Modelled from the spec: Example.ts is not among the sources. An artifact
    is its value with the media type and the encoding hints it was built
    for (section 3, ExampleArtifact); its name is its key in the map. *)
Record ExampleModel : Type := {
  value : Json;
  mime : string;
  encoding : option Json
}.

(** Modelled from the spec: the constructor of [ExampleModel] keeps the
    [value] member of the example object it is given. *)
Definition new_ExampleModel (parser : OpenAPIParser) (infoOrRef : Json)
    (mime : string) (encoding : option Json) : ExampleModel :=
  {| value := default JUndefined (member infoOrRef "value");
     mime := mime;
     encoding := encoding |}.

(** ** Outcomes and traces *)

Inductive Outcome (A : Type) : Type :=
| Returned (a : A)
| Thrown (e : string).
Arguments Returned {A} a.
Arguments Thrown {A} e.

Inductive Event : Type :=
| EvCollect (schema : SchemaModel)
| EvResolve (schema : SchemaModel)
| EvSample (resolved : ResolvedSchema) (options : SamplerOptions) (doc : Json)
| EvPatch (sample : Json) (schema : SchemaModel).

(** A run: the calls made, oldest first, and how the run ended. *)
Definition Run (A : Type) : Type := (list Event * Outcome A)%type.

Definition trace {A} (r : Run A) : list Event := fst r.
Definition outcome {A} (r : Run A) : Outcome A := snd r.

Definition ret {A} (a : A) : Run A := ([], Returned a).

(** A step that makes no call. *)
Definition step {A} (o : Outcome A) : Run A := ([], o).

Definition bind {A B} (m : Run A) (f : A -> Run B) : Run B :=
  match m with
  | (t, Returned a) => (t ++ trace (f a), outcome (f a))
  | (t, Thrown e) => (t, Thrown e)
  end.

Declare Scope run_scope.
Delimit Scope run_scope with run.
Notation "x <- m ;; k" := (bind m (fun x => k))
  (at level 100, m at next level, right associativity) : run_scope.
Notation "m ;;; k" := (bind m (fun _ => k))
  (at level 100, right associativity) : run_scope.

(** [for (const x of l) { acc = body(acc, x) }] *)
Fixpoint for_of {A S} (l : list A) (body : S -> A -> Run S) (acc : S)
  : Run S :=
  match l with
  | [] => ret acc
  | x :: r => bind (body acc x) (for_of r body)
  end.

(** ** Writes into a sample *)

(** [xs[i] = x] on the elements of an array: an element in range is
    replaced; a write past the end leaves holes up to the index. *)
Definition items_put (xs : list (option Json)) (i : nat) (x : Json)
  : list (option Json) :=
  if decide (i < length xs) then <[ i := Some x ]> xs
  else xs ++ replicate (i - length xs) None ++ [Some x].

(** [v[k] = s] with a string [s], for a [v] that passed [is_object].
    [to_length] is the length the language takes from a string written to
    the length of an array, [None] when it takes none: the write then raises
    a RangeError. A shorter length drops the elements past it, a longer one
    leaves holes. *)
Definition set_member (to_length : string -> option N) (v : Json)
    (k s : string) : Outcome Json :=
  match v with
  | JObj ps => Returned (JObj (own_put ps k (JStr s)))
  | JArr xs own =>
      match array_index k with
      | Some i => Returned (JArr (items_put xs i (JStr s)) own)
      | None =>
          if decide (k = "length") then
            match to_length s with
            | Some n => Returned (JArr (resize (N.to_nat n) None xs) own)
            | None => Thrown "RangeError: Invalid array length"
            end
          else Returned (JArr xs (own_put own k (JStr s)))
      end
  | _ => Returned v
  end.

(** [examples[k] = x], for a dictionary made by an object literal: the key
    [__proto__] reaches the setter of [Object.prototype] and adds no
    property; any other key is written as a property of the dictionary. *)
Definition dict_put {V} (m : gmap string V) (k : string) (x : V)
  : gmap string V :=
  if decide (k = "__proto__") then m else <[ k := x ]> m.

(** ** Collaborators *)

(** [applyDiscriminatorValues] patches the sample it is given in place; here
    it returns the patched sample. *)
Record Collaborators : Type := {
  (** utils *)
  isJsonLike : string -> bool;
  (** Schema.ts; [new SchemaModel(parser, schema, pointer, options)] *)
  new_SchemaModel :
    OpenAPIParser -> Json -> string -> RedocNormalizedOptions -> SchemaModel;
  collectActiveDiscriminatorSelections : SchemaModel -> list nat;
  getSchemaWithActiveDiscriminators : SchemaModel -> ResolvedSchema;
  applyDiscriminatorValues : Json -> SchemaModel -> Json;
  (** openapi-sampler *)
  Sampler_sample : ResolvedSchema -> SamplerOptions -> Json -> Outcome Json;
  (** The language: the length an array takes from a string written to its
      [length], that is the number the string converts to when it is an
      integer from 0 to 2^32 - 1, and [None] when the write raises a
      RangeError. The conversion of a string to a number is the engine's. *)
  ToArrayLength : string -> option N
}.

(** Modelled from the spec: utils is not among the sources. Static examples
    are a mapping from the supplied names to artifacts (section 3), so
    [mapValues] builds one value for each key. *)
Definition mapValues {A B} (m : gmap string A) (f : A -> B) : gmap string B :=
  f <$> m.

(** ** MediaTypeModel *)

(** [schema] is the schema model of the media type, [None] when the field
    holds no model: the constructor then left in it what [info.schema] was,
    [undefined] or another value that counts as false, and MediaType.ts
    reads the field only to test it. *)
Record MediaTypeModel : Type := {
  schema : option SchemaModel;
  name : string;
  isRequestType : bool;
  onlyRequiredInSamples : bool;
  generatedSamplesMaxDepth : Z;
  _staticExamples : option (gmap string ExampleModel);
  _parser : option OpenAPIParser;
  _encoding : option Json;
  _shouldGenerateExamples : bool
}.

(** [if (s)] for a string that may be undefined. *)
Definition truthy (s : option string) : option string :=
  match s with
  | Some "" => None
  | _ => s
  end.

Section Engine.

Context (svc : Collaborators).

Definition new_MediaTypeModel (parser : OpenAPIParser) (name : string)
    (isRequestType : bool) (info : OpenAPIMediaType)
    (options : RedocNormalizedOptions) : MediaTypeModel :=
  {| schema :=
       match info_schema info with
       | Some s =>
           if json_truthy s then Some (new_SchemaModel svc parser s "" options)
           else None
       | None => None
       end;
     name := name;
     isRequestType := isRequestType;
     onlyRequiredInSamples := opt_onlyRequiredInSamples options;
     generatedSamplesMaxDepth := opt_generatedSamplesMaxDepth options;
     _parser := Some parser;
     _encoding := info_encoding info;
     _staticExamples :=
       match info_examples info with
       | Some examples =>
           Some (mapValues examples (fun example =>
                   new_ExampleModel parser example name (info_encoding info)))
       | None =>
           match info_example info with
           | Some example =>
               Some {[ "default" :=
                         new_ExampleModel parser
                           (JObj [("value", deref parser example)])
                           name (info_encoding info) ]}
           | None => None
           end
       end;
     _shouldGenerateExamples :=
       match info_examples info, info_example info with
       | None, None => isJsonLike svc name
       | _, _ => false
       end |}.

Definition samplerOptions (this : MediaTypeModel) : SamplerOptions :=
  {| skipReadOnly := isRequestType this;
     skipWriteOnly := negb (isRequestType this);
     skipNonRequired := isRequestType this && onlyRequiredInSamples this;
     maxSampleDepth := generatedSamplesMaxDepth this |}.

(** The calls out of MediaType.ts, each leaving its event. *)
Definition call_collect (s : SchemaModel) : Run (list nat) :=
  ([EvCollect s], Returned (collectActiveDiscriminatorSelections svc s)).

Definition call_resolve (s : SchemaModel) : Run ResolvedSchema :=
  ([EvResolve s], Returned (getSchemaWithActiveDiscriminators svc s)).

Definition call_sample (r : ResolvedSchema) (o : SamplerOptions) (doc : Json)
  : Run Json :=
  ([EvSample r o doc], Sampler_sample svc r o doc).

Definition call_patch (sample : Json) (s : SchemaModel) : Run Json :=
  ([EvPatch sample s], Returned (applyDiscriminatorValues svc sample s)).

(** [this.schema.oneOf && this.schema.oneOf.length > 0] *)
Definition has_variants (s : SchemaModel) : bool :=
  match oneOf s with
  | Some l => bool_decide (0 < length l)
  | None => false
  end.

(** Lines 117-119: the root discriminator written into the sample. *)
Definition set_root_discriminator (root subSchema : SchemaModel)
    (sample : Json) : Outcome Json :=
  match truthy (discriminatorProp root) with
  | Some prop =>
      if is_object sample
      then set_member (ToArrayLength svc) sample prop (title subSchema)
      else Returned sample
  | None => Returned sample
  end.

Definition generateExamples (this : MediaTypeModel)
  : Run (option (gmap string ExampleModel)) :=
  match schema this, _parser this with
  | Some root, Some parser =>
      let options := samplerOptions this in
      if has_variants root then
        (examples <-
           for_of (default [] (oneOf root))
             (fun (examples : gmap string ExampleModel) subSchema =>
                resolvedSchema <- call_resolve subSchema ;;
                sample <- call_sample resolvedSchema options (spec parser) ;;
                sample <- step (set_root_discriminator root subSchema
                                  sample) ;;
                sample <- call_patch sample subSchema ;;
                ret (dict_put examples (title subSchema)
                       (new_ExampleModel parser (JObj [("value", sample)])
                          (name this) (_encoding this))))
             ∅ ;;
         ret (Some examples))%run
      else
        (resolvedSchema <- call_resolve root ;;
         sample <- call_sample resolvedSchema options (spec parser) ;;
         sample <- call_patch sample root ;;
         ret (Some {[ "default" :=
                        new_ExampleModel parser (JObj [("value", sample)])
                          (name this) (_encoding this) ]}))%run
  | _, _ => ret None
  end.

Definition examples (this : MediaTypeModel)
  : Run (option (gmap string ExampleModel)) :=
  match _staticExamples this with
  | Some static => ret (Some static)
  | None =>
      match _shouldGenerateExamples this, schema this, _parser this with
      | true, Some root, Some _ =>
          (call_collect root ;;; generateExamples this)%run
      | _, _, _ => ret None
      end
  end.

End Engine.

(** The engine with another dependency collector in place. *)
Definition with_collector (svc : Collaborators)
    (collect : SchemaModel -> list nat) : Collaborators :=
  {| isJsonLike := isJsonLike svc;
     new_SchemaModel := new_SchemaModel svc;
     collectActiveDiscriminatorSelections := collect;
     getSchemaWithActiveDiscriminators := getSchemaWithActiveDiscriminators svc;
     applyDiscriminatorValues := applyDiscriminatorValues svc;
     Sampler_sample := Sampler_sample svc;
     ToArrayLength := ToArrayLength svc |}.

(** ** Vocabulary of the statements *)

(** The state Generating of a read: nothing static, generation enabled, a
    schema and a parser at hand. *)
Definition Generating (this : MediaTypeModel) (root : SchemaModel)
    (parser : OpenAPIParser) : Prop :=
  _staticExamples this = None ∧ _shouldGenerateExamples this = true ∧
  schema this = Some root ∧ _parser this = Some parser.

(** What the sampler answers for a schema model on a read of [this]. *)
Definition sampled (svc : Collaborators) (this : MediaTypeModel)
    (parser : OpenAPIParser) (s : SchemaModel) : Outcome Json :=
  Sampler_sample svc (getSchemaWithActiveDiscriminators svc s)
    (samplerOptions this) (spec parser).

(** The artifact the fan-out builds for a variant from its sample as the
    write of the root discriminator left it. *)
Definition variant_artifact (svc : Collaborators) (this : MediaTypeModel)
    (parser : OpenAPIParser) (subSchema : SchemaModel) (written : Json)
  : ExampleModel :=
  new_ExampleModel parser
    (JObj [("value", applyDiscriminatorValues svc written subSchema)])
    (name this) (_encoding this).

(** The artifact of the single path. *)
Definition default_artifact (svc : Collaborators) (this : MediaTypeModel)
    (parser : OpenAPIParser) (root : SchemaModel) (sample : Json)
  : ExampleModel :=
  new_ExampleModel parser
    (JObj [("value", applyDiscriminatorValues svc sample root)])
    (name this) (_encoding this).

(** The calls the fan-out makes for one variant, the patcher called on the
    sample as the write of the root discriminator left it. *)
Definition variant_calls (svc : Collaborators) (this : MediaTypeModel)
    (parser : OpenAPIParser) (subSchema : SchemaModel) (written : Json)
  : list Event :=
  [ EvResolve subSchema;
    EvSample (getSchemaWithActiveDiscriminators svc subSchema)
      (samplerOptions this) (spec parser);
    EvPatch written subSchema ].

(** A sampler call of the trace that returned. *)
Definition sample_returned (svc : Collaborators) (ev : Event) : Prop :=
  match ev with
  | EvSample r o doc => ∃ v, Sampler_sample svc r o doc = Returned v
  | _ => True
  end.

(** Every sampler call of a run returned, but for a last one, the last call
    of the run, that raised what the run raises. A run that returns is of
    the first kind. *)
Definition sampler_faithful (svc : Collaborators) {A} (r : Run A) : Prop :=
  Forall (sample_returned svc) (trace r) ∨
  ∃ before resolved options doc e,
    trace r = before ++ [EvSample resolved options doc] ∧
    Forall (sample_returned svc) before ∧
    Sampler_sample svc resolved options doc = Thrown e ∧
    outcome r = Thrown e.

(** ** The discriminator walks of Schema.ts *)

(** Modelled from the spec: Schema.ts is not among the sources. Section 4.1:
    a depth-first walk over every node, all variants included, that reads the
    selection of each polymorphic node; the reads are what it returns. *)
Fixpoint spec_collect (s : SchemaModel) : list nat :=
  match s with
  | mkSchemaModel _ variants _ index fs it =>
      match variants with
      | Some l =>
          index :: (fix over (l : list SchemaModel) : list nat :=
                      match l with
                      | [] => []
                      | v :: r => spec_collect v ++ over r
                      end) l
      | None => []
      end
      ++ (fix over (fs : list (string * SchemaModel)) : list nat :=
            match fs with
            | [] => []
            | (_, c) :: r => spec_collect c ++ over r
            end) fs
      ++ match it with
         | Some i => spec_collect i
         | None => []
         end
  end.

(** Modelled from the spec: Schema.ts is not among the sources. Section 4.2:
    a polymorphic node becomes its active variant, resolved in turn; any
    other node is resolved child by child. *)
Fixpoint spec_resolve (s : SchemaModel) : ResolvedSchema :=
  match s with
  | mkSchemaModel t variants _ index fs it =>
      match variants with
      | Some ((first :: _) as l) =>
          (fix pick (l : list SchemaModel) (i : nat) : ResolvedSchema :=
             match l, i with
             | v :: _, O => spec_resolve v
             | _ :: r, S j => pick r j
             | [], _ => spec_resolve first
             end) l index
      | _ =>
          mkResolved t
            ((fix over (fs : list (string * SchemaModel)) :=
                match fs with
                | [] => []
                | (n, c) :: r => (n, spec_resolve c) :: over r
                end) fs)
            match it with
            | Some i => Some (spec_resolve i)
            | None => None
            end
      end
  end.

(** Modelled from the spec: Schema.ts is not among the sources. Section 4.4:
    at a polymorphic node with a discriminator field the tag of the active
    variant is written into an object value, and the walk goes on in that
    variant; at any other node it descends into the fields an object value
    has and into the items of an array value, and leaves the rest alone. *)
Fixpoint spec_patch (s : SchemaModel) (v : Json) : Json :=
  match s with
  | mkSchemaModel _ variants prop index fs it =>
      match variants with
      | Some ((first :: _) as l) =>
          let '(tag, walk) :=
            (fix pick (l : list SchemaModel) (i : nat)
               : string * (Json -> Json) :=
               match l, i with
               | x :: _, O => (title x, spec_patch x)
               | _ :: r, S j => pick r j
               | [], _ => (title first, spec_patch first)
               end) l index in
          walk match prop, v with
               | Some p, JObj ps => JObj (own_put ps p (JStr tag))
               | _, _ => v
               end
      | _ =>
          match v with
          | JObj ps =>
              JObj
                ((fix over (fs : list (string * SchemaModel))
                      (ps : list (string * Json)) : list (string * Json) :=
                    match fs with
                    | [] => ps
                    | (n, c) :: r =>
                        over r match props_get ps n with
                               | Some child =>
                                   props_put ps n (spec_patch c child)
                               | None => ps
                               end
                    end) fs ps)
          | JArr xs own =>
              match it with
              | Some i => JArr (map (option_map (spec_patch i)) xs) own
              | None => v
              end
          | _ => v
          end
      end
  end.

(** ** Fixtures *)

(** A sampler to run the engine with: an object for a schema with fields,
    a one-item array for one with items, a string otherwise; it raises on a
    schema titled Unsupported. *)
Fixpoint fixture_value (r : ResolvedSchema) : Json :=
  match r with
  | mkResolved _ fs it =>
      match fs, it with
      | [], None => JStr "string"
      | [], Some i => JArr [Some (fixture_value i)] []
      | _ :: _, _ =>
          JObj ((fix over (fs : list (string * ResolvedSchema)) :=
                   match fs with
                   | [] => []
                   | (n, c) :: r => (n, fixture_value c) :: over r
                   end) fs)
      end
  end.

Definition fixture_sample (r : ResolvedSchema) (o : SamplerOptions)
    (doc : Json) : Outcome Json :=
  match r with
  | mkResolved t _ _ =>
      if decide (t = "Unsupported") then Thrown "unsupported construct"
      else Returned (fixture_value r)
  end.

(** A conversion to run the engine with: it agrees with the language on
    the strings of decimal digits and on the empty string, which converts
    to 0, and takes no length from any other string; the titles of the
    fixtures that are no numerals are such in the language too. *)
Definition fixture_length (s : string) : option N :=
  match decimal s 0 with
  | Some n => if (n <? 4294967296)%N then Some n else None
  | None => None
  end.

Definition leaf (t : string) : SchemaModel :=
  mkSchemaModel t None None 0 [] None.

Definition object_of (t : string) (fs : list (string * SchemaModel))
  : SchemaModel :=
  mkSchemaModel t None None 0 fs None.

Definition fixture : Collaborators :=
  {| isJsonLike := fun n => bool_decide (n = "application/json");
     new_SchemaModel := fun _ raw _ _ =>
       match member raw "title" with
       | Some (JStr t) => leaf t
       | _ => leaf ""
       end;
     collectActiveDiscriminatorSelections := spec_collect;
     getSchemaWithActiveDiscriminators := spec_resolve;
     applyDiscriminatorValues := fun sample s => spec_patch s sample;
     Sampler_sample := fixture_sample;
     ToArrayLength := fixture_length |}.

Definition fixture_parser : OpenAPIParser :=
  {| spec := JObj [("openapi", JStr "3.0.0")]; deref := fun x => x |}.

Definition media_type_of (root : option SchemaModel) : MediaTypeModel :=
  {| schema := root;
     name := "application/json";
     isRequestType := true;
     onlyRequiredInSamples := false;
     generatedSamplesMaxDepth := 10;
     _staticExamples := None;
     _parser := Some fixture_parser;
     _encoding := None;
     _shouldGenerateExamples := true |}.

Definition Cat : SchemaModel :=
  object_of "Cat" [("petType", leaf "petType"); ("huntingSkill", leaf "skill")].
Definition Dog : SchemaModel :=
  object_of "Dog" [("petType", leaf "petType"); ("packSize", leaf "size")].
Definition Pet : SchemaModel :=
  mkSchemaModel "Pet" (Some [Cat; Dog]) (Some "petType") 0 [] None.


(** A root with a variant that is polymorphic itself, over the same
    property. *)
Definition Kennel : SchemaModel :=
  mkSchemaModel "Pet"
    (Some [mkSchemaModel "Dog"
             (Some [object_of "Poodle" [("coat", leaf "coat")]])
             (Some "petType") 0 [] None])
    (Some "petType") 0 [] None.

(** A root whose list of variants is empty. *)
Definition Hollow : SchemaModel :=
  mkSchemaModel "Pet" (Some []) (Some "petType") 0 [("name", leaf "name")] None.

(** A root with a variant titled __proto__. *)
Definition Orphan : SchemaModel :=
  mkSchemaModel "Pet"
    (Some [Cat; object_of "__proto__" [("name", leaf "name")]])
    (Some "petType") 0 [] None.


(** A root whose discriminator property is length, with a variant that is
    an array. *)
Definition Lengths : SchemaModel :=
  mkSchemaModel "List"
    (Some [mkSchemaModel "Names" None None 0 [] (Some (leaf "name"))])
    (Some "length") 0 [] None.

(** A root with a variant the sampler refuses. *)
Definition Brittle : SchemaModel :=
  mkSchemaModel "Pet" (Some [Cat; leaf "Unsupported"; Dog]) (Some "petType")
    0 [] None.


Definition fixture_options : RedocNormalizedOptions :=
  {| opt_onlyRequiredInSamples := true; opt_generatedSamplesMaxDepth := 8 |}.

(** Descriptions of a media type: with examples and an example, with an
    example alone, with neither. *)
Definition info_with_both : OpenAPIMediaType :=
  {| info_schema := Some (JObj [("title", JStr "Pet")]);
     info_example := Some (JObj [("name", JStr "Rex")]);
     info_examples :=
       Some {[ "tom" := JObj [("value", JObj [("name", JStr "Tom")])] ]};
     info_encoding := None |}.

Definition info_with_example : OpenAPIMediaType :=
  {| info_schema := Some (JObj [("title", JStr "Pet")]);
     info_example := Some (JObj [("name", JStr "Rex")]);
     info_examples := None;
     info_encoding := None |}.

Definition info_plain : OpenAPIMediaType :=
  {| info_schema := Some (JObj [("title", JStr "Pet")]);
     info_example := None;
     info_examples := None;
     info_encoding := None |}.

(** The media type description with another singular example. *)
Definition with_example (info : OpenAPIMediaType) (example : option Json)
  : OpenAPIMediaType :=
  {| info_schema := info_schema info;
     info_example := example;
     info_examples := info_examples info;
     info_encoding := info_encoding info |}.

Definition is_collect (ev : Event) : bool :=
  match ev with
  | EvCollect _ => true
  | _ => false
  end.

(** A root that is not polymorphic: no list of variants, or an empty one. *)
Definition not_polymorphic (root : SchemaModel) : Prop :=
  oneOf root = None ∨ oneOf root = Some [].

(** The map a loop leaves that writes [val x] under [key x] for each [x]
    of a list, in order: [for (const x of l) { acc[key(x)] = val(x) }]. *)
Definition fill {A V} (key : A → string) (val : A → V)
    (acc : gmap string V) (l : list A) : gmap string V :=
  foldl (λ acc x, dict_put acc (key x) (val x)) acc l.

(** * The JSON viewer (src/unnamed/part_000)

    The functions of the viewer component that walk and change the rendered
    tree: [buildPathFromElement], [collectExpandedPaths],
    [restoreExpandedPaths], and from the component itself [expandAll],
    [collapseAll], [collapseElement] and the test for the folding buttons.

    The tree is a document of elements and text nodes. Its elements are
    HTML elements of a document in no-quirks mode: [tag] is the local name,
    in lower case, and a class selector compares class names as they are
    written. An element is referred to by the way from it up to the root:
    the index of the node in its parent, then that of the parent, and so on.
    A change of an attribute gives the document with that attribute changed;
    the references stay what they were. *)

Inductive Node : Type :=
| Element (tag : string) (attrs : list (string * string))
          (childNodes : list Node)
| Text (data : string).

Definition Ref : Type := list nat.

Definition childNodes_of (n : Node) : list Node :=
  match n with
  | Element _ _ cs => cs
  | Text _ => []
  end.

Definition attrs_of (n : Node) : list (string * string) :=
  match n with
  | Element _ a _ => a
  | Text _ => []
  end.

Definition is_element (n : Node) : bool :=
  match n with
  | Element _ _ _ => true
  | Text _ => false
  end.

(** The node at the end of a way down from [n], outermost index first. *)
Fixpoint descend (n : Node) (way : list nat) : option Node :=
  match way with
  | [] => Some n
  | i :: way =>
      match childNodes_of n !! i with
      | Some c => descend c way
      | None => None
      end
  end.

Definition node_at (doc : Node) (r : Ref) : option Node :=
  descend doc (reverse r).

(** [n] with the node at the end of the way replaced by its image. *)
Fixpoint change (n : Node) (way : list nat) (f : Node → Node) {struct way}
  : Node :=
  match way with
  | [] => f n
  | i :: way =>
      match n with
      | Element t a cs => Element t a (alter (λ c, change c way f) i cs)
      | Text _ => n
      end
  end.

Definition change_at (doc : Node) (r : Ref) (f : Node → Node) : Node :=
  change doc (reverse r) f.

(** [e.parentElement] *)
Definition parentElement (r : Ref) : option Ref :=
  match r with
  | [] => None
  | _ :: up => Some up
  end.

(** ** Attributes and class lists *)

Fixpoint getAttribute (a : list (string * string)) (k : string)
  : option string :=
  match a with
  | [] => None
  | (k', v) :: r => if decide (k' = k) then Some v else getAttribute r k
  end.

Fixpoint set_attribute (a : list (string * string)) (k v : string)
  : list (string * string) :=
  match a with
  | [] => [(k, v)]
  | (k', v') :: r =>
      if decide (k' = k) then (k, v) :: r else (k', v') :: set_attribute r k v
  end.

(** [e.setAttribute(k, v)] *)
Definition setAttribute (k v : string) (n : Node) : Node :=
  match n with
  | Element t a cs => Element t (set_attribute a k v) cs
  | Text _ => n
  end.

(** [e.className] *)
Definition className (n : Node) : string :=
  default "" (getAttribute (attrs_of n) "class").

(** Tab, line feed, form feed, carriage return, space. *)
Definition is_ascii_whitespace (c : ascii) : bool :=
  bool_decide (c = "009"%char) || bool_decide (c = "010"%char)
  || bool_decide (c = "012"%char) || bool_decide (c = "013"%char)
  || bool_decide (c = " "%char).

(** The words of a string between runs of whitespace; [word] is the word
    being read. *)
Fixpoint split_on_whitespace (s word : string) : list string :=
  match s with
  | EmptyString => if decide (word = "") then [] else [word]
  | String c r =>
      if is_ascii_whitespace c
      then if decide (word = "") then split_on_whitespace r ""
           else word :: split_on_whitespace r ""
      else split_on_whitespace r (word +:+ String c "")
  end.

(** Each word once, at its first place. *)
Fixpoint ordered_set (l : list string) : list string :=
  match l with
  | [] => []
  | x :: r => x :: filter (λ y, y ≠ x) (ordered_set r)
  end.

(** The token set of [e.classList]. *)
Definition classList (n : Node) : list string :=
  ordered_set (split_on_whitespace (className n) "").

(** [e.classList.contains(token)] *)
Definition classList_contains (token : string) (n : Node) : bool :=
  bool_decide (token ∈ classList n).

Fixpoint join (sep : string) (l : list string) : string :=
  match l with
  | [] => ""
  | [x] => x
  | x :: r => x +:+ sep +:+ join sep r
  end.

(** The update steps of a class list: the attribute becomes the tokens
    joined by a space, unless there is neither an attribute nor a token. *)
Definition update_classList (n : Node) (tokens : list string) : Node :=
  match n with
  | Element t a cs =>
      match getAttribute a "class", tokens with
      | None, [] => n
      | _, _ => Element t (set_attribute a "class" (join " " tokens)) cs
      end
  | Text _ => n
  end.

(** [e.classList.add(token)] *)
Definition classList_add (token : string) (n : Node) : Node :=
  update_classList n
    (if classList_contains token n then classList n
     else classList n ++ [token]).

(** [e.classList.remove(token)] *)
Definition classList_remove (token : string) (n : Node) : Node :=
  update_classList n (filter (λ t, t ≠ token) (classList n)).

(** ** Selectors *)

Definition has_tag (t : string) (n : Node) : bool :=
  match n with
  | Element t' _ _ => bool_decide (t' = t)
  | Text _ => false
  end.

(** Whether the node at [r] is an element that [sel] selects. *)
Definition matches (sel : Node → bool) (doc : Node) (r : Ref) : bool :=
  match node_at doc r with
  | Some n => is_element n && sel n
  | None => false
  end.

(** [e.closest(sel)]: the element itself or the nearest ancestor selected. *)
Fixpoint closest (sel : Node → bool) (doc : Node) (r : Ref) : option Ref :=
  if matches sel doc r then Some r
  else match r with
       | [] => None
       | _ :: up => closest sel doc up
       end.

(** The elements below [n], which sits at [r], in tree order. *)
Fixpoint descendants (n : Node) (r : Ref) : list Ref :=
  match n with
  | Text _ => []
  | Element _ _ cs =>
      (fix over (cs : list Node) (i : nat) : list Ref :=
         match cs with
         | [] => []
         | c :: rest =>
             (if is_element c then (i :: r) :: descendants c (i :: r) else [])
             ++ over rest (S i)
         end) cs 0
  end.

Definition descendants_at (doc : Node) (r : Ref) : list Ref :=
  match node_at doc r with
  | Some n => descendants n r
  | None => []
  end.

(** [e.querySelectorAll(sel)], for a selector told by the reference too. *)
Definition querySelectorAll (sel : Ref → bool) (doc : Node) (r : Ref)
  : list Ref :=
  filter (λ q, sel q = true) (descendants_at doc r).

(** [e.querySelector(sel)] *)
Definition querySelector (sel : Ref → bool) (doc : Node) (r : Ref)
  : option Ref :=
  head (querySelectorAll sel doc r).

(** [.c] *)
Definition by_class (c : string) (doc : Node) (q : Ref) : bool :=
  matches (classList_contains c) doc q.

(** [:scope > .c] *)
Definition by_scope_class (c : string) (doc : Node) (scope q : Ref) : bool :=
  match q with
  | _ :: up => bool_decide (up = scope) && by_class c doc q
  | [] => false
  end.

(** [:scope > div > .c] *)
Definition by_scope_div_class (c : string) (doc : Node) (scope q : Ref)
  : bool :=
  match q with
  | _ :: ((_ :: up) as d) =>
      bool_decide (up = scope) && matches (has_tag "div") doc d
      && by_class c doc q
  | _ => false
  end.

(** [ul.collapsible] *)
Definition ul_collapsible (n : Node) : bool :=
  has_tag "ul" n && classList_contains "collapsible" n.

(** [e.textContent] *)
Fixpoint textContent (n : Node) : string :=
  match n with
  | Text s => s
  | Element _ _ cs => foldr String.append "" (textContent <$> cs)
  end.

(** [Array.from(parent.children).indexOf(e)] for the child of [parent] at
    the index [i] of its child nodes. *)
Definition index_in_children (parent : Node) (i : nat) : nat :=
  length (filter (λ c, is_element c = true) (take i (childNodes_of parent))).

(** [s.replace(q, '')] for [q] the pattern of every double quote. *)
Fixpoint remove_quotes (s : string) : string :=
  match s with
  | EmptyString => ""
  | String c r =>
      if decide (c = "034"%char) then remove_quotes r
      else String c (remove_quotes r)
  end.

(** ** The functions of the viewer *)

(** The rounds of the loop of [buildPathFromElement], at most [rounds] of
    them: [None] if the loop is not over by then. *)
Fixpoint path_parts (rounds : nat) (doc : Node) (current : option Ref)
    (parts : list string) : option (list string) :=
  match current with
  | None => Some parts
  | Some current =>
      match rounds with
      | O => None
      | S rounds =>
          let propertySpan :=
            querySelector (by_scope_div_class "property" doc current)
              doc current in
          let text :=
            match propertySpan with
            | Some span => default "" (textContent <$> node_at doc span)
            | None => ""
            end in
          let parts :=
            if decide (text ≠ "") then remove_quotes text :: parts
            else
              match current with
              | i :: parent =>
                  if by_class "array" doc parent
                  then
                    let index :=
                      match node_at doc parent with
                      | Some p => index_in_children p i
                      | None => 0
                      end in
                    ("[" +:+ pretty index +:+ "]") :: parts
                  else parts
              | [] => parts
              end in
          let parentUl :=
            match parentElement current with
            | Some parent => closest ul_collapsible doc parent
            | None => None
            end in
          path_parts rounds doc
            match parentUl with
            | Some ul => closest (has_tag "li") doc ul
            | None => None
            end
            parts
      end
  end.

(** The loop is given one round for each node from the element up to the
    root; it never needs more ([path_parts_returns]). *)
Definition buildPathFromElement (doc : Node) (collapsible : Ref) : string :=
  match path_parts (S (length collapsible)) doc
          (closest (has_tag "li") doc collapsible) [] with
  | Some parts => join "." parts
  | None => ""
  end.

Definition collectExpandedPaths (doc : Node) (container : option Ref)
  : gset string :=
  match container with
  | None => ∅
  | Some container =>
      foldl
        (λ (paths : gset string) collapsible,
           match parentElement collapsible with
           | Some parent =>
               if negb (by_class "collapsed" doc parent)
               then
                 let path := buildPathFromElement doc collapsible in
                 if decide (path ≠ "") then {[ path ]} ∪ paths else paths
               else paths
           | None => paths
           end)
        ∅ (querySelectorAll (by_class "collapsible" doc) doc container)
  end.

(** One round of the loop of [restoreExpandedPaths]. *)
Definition restore_round (paths : gset string) (doc : Node)
    (collapsible : Ref) : Node :=
  let path := buildPathFromElement doc collapsible in
  let parent := parentElement collapsible in
  let collapser :=
    match parent with
    | Some parent =>
        querySelector (by_scope_class "collapser" doc parent) doc parent
    | None => None
    end in
  if decide (path ∈ paths)
  then
    let doc :=
      match parent with
      | Some parent => change_at doc parent (classList_remove "collapsed")
      | None => doc
      end in
    match collapser with
    | Some collapser =>
        change_at doc collapser (setAttribute "aria-label" "collapse")
    | None => doc
    end
  else doc.

Definition restoreExpandedPaths (doc : Node) (container : option Ref)
    (paths : gset string) : Node :=
  match container with
  | None => doc
  | Some container =>
      if decide (size paths = 0) then doc
      else foldl (restore_round paths) doc
             (querySelectorAll (by_class "collapsible" doc) doc container)
  end.

(** A loop over elements that changes the document and may raise: the
    document is left as it was when the error was raised. *)
Fixpoint for_each_element (l : list Ref)
    (body : Node → Ref → Node * Outcome ()) (doc : Node)
  : Node * Outcome () :=
  match l with
  | [] => (doc, Returned ())
  | x :: r =>
      match body doc x with
      | (doc, Returned _) => for_each_element r body doc
      | (doc, Thrown e) => (doc, Thrown e)
      end
  end.

(** [parentNode.querySelector('.collapser')!.setAttribute('aria-label', v)] *)
Definition label_collapser (v : string) (doc : Node) (parentNode : Ref)
  : Node * Outcome () :=
  match querySelector (by_class "collapser" doc) doc parentNode with
  | Some collapser =>
      (change_at doc collapser (setAttribute "aria-label" v), Returned ())
  | None => (doc, Thrown "TypeError")
  end.

(** [node?.getElementsByClassName('collapsible')] is undefined without a
    node, and [Array.prototype.slice.call] raises on undefined. *)
Definition expandAll (doc : Node) (node : option Ref) : Node * Outcome () :=
  match node with
  | None => (doc, Thrown "TypeError")
  | Some node =>
      for_each_element
        (querySelectorAll (by_class "collapsible" doc) doc node)
        (λ doc collapsed,
           match parentElement collapsed with
           | Some parentNode =>
               label_collapser "collapse"
                 (change_at doc parentNode (classList_remove "collapsed"))
                 parentNode
           | None => (doc, Thrown "TypeError")
           end)
        doc
  end.

Definition collapseAll (doc : Node) (node : option Ref) : Node * Outcome () :=
  match node with
  | None => (doc, Thrown "TypeError")
  | Some node =>
      for_each_element
        (drop 1 (querySelectorAll (by_class "collapsible" doc) doc node))
        (λ doc expanded,
           match parentElement expanded with
           | Some parentNode =>
               label_collapser "expand"
                 (change_at doc parentNode (classList_add "collapsed"))
                 parentNode
           | None => (doc, Thrown "TypeError")
           end)
        doc
  end.

Definition collapseElement (doc : Node) (target : Ref) : Node * Outcome () :=
  if decide ((className <$> node_at doc target) = Some "collapser")
  then
    match parentElement target with
    | None => (doc, Thrown "TypeError")
    | Some parent =>
        match querySelector (by_class "collapsible" doc) doc parent with
        | None => (doc, Thrown "TypeError")
        | Some collapsed =>
            match parentElement collapsed with
            | None => (doc, Thrown "TypeError")
            | Some holder =>
                if by_class "collapsed" doc holder
                then
                  (change_at
                     (change_at doc holder (classList_remove "collapsed"))
                     target (setAttribute "aria-label" "collapse"),
                   Returned ())
                else
                  (change_at
                     (change_at doc holder (classList_add "collapsed"))
                     target (setAttribute "aria-label" "expand"),
                   Returned ())
            end
        end
    end
  else (doc, Returned ()).

(** ** The folding buttons *)

(** The characters of a string, each a string. *)
Fixpoint characters (s : string) : list Json :=
  match s with
  | EmptyString => []
  | String c r => JStr (String c "") :: characters r
  end.

(** [Object.values(v)], for a [v] that is not null or undefined. *)
Definition Object_values (v : Json) : list Json :=
  match v with
  | JObj ps => ps.*2
  | JArr xs own => omap id xs ++ own.*2
  | JStr s => characters s
  | _ => []
  end.

(** [props.data && Object.values(props.data).some(value =>
    typeof value === 'object' && value !== null)] *)
Definition showFoldingButtons (data : Json) : Json :=
  if json_truthy data
  then JBool (existsb is_object (Object_values data))
  else data.

(** How deep the containers of a value nest: 0 for a value that is neither
    an object nor an array. *)
Fixpoint nesting (v : Json) : nat :=
  match v with
  | JObj ps =>
      S (foldr Nat.max 0
           ((fix over (ps : list (string * Json)) : list nat :=
               match ps with
               | [] => []
               | (_, x) :: r => nesting x :: over r
               end) ps))
  | JArr xs own =>
      S (Nat.max
           (foldr Nat.max 0
              ((fix over (xs : list (option Json)) : list nat :=
                  match xs with
                  | [] => []
                  | Some x :: r => nesting x :: over r
                  | None :: r => over r
                  end) xs))
           (foldr Nat.max 0
              ((fix over (ps : list (string * Json)) : list nat :=
                  match ps with
                  | [] => []
                  | (_, x) :: r => nesting x :: over r
                  end) own)))
  | _ => 0
  end.

(** ** A rendered tree *)

Definition quoted (s : string) : string :=
  String "034"%char (s +:+ String "034"%char "").

Definition el (tag class : string) (childNodes : list Node) : Node :=
  Element tag [("class", class)] childNodes.

Definition property_span (key : string) : Node :=
  el "span" "property token string" [Text (quoted key)].

Definition collapser_button (label : string) : Node :=
  Element "button" [("class", "collapser"); ("aria-label", label)] [].

(** The tree rendered for an object with the members pet, an object that
    is shown expanded, and tags, an array that is shown collapsed and holds
    a string and a collapsed object. *)
Definition rendered : Node :=
  el "div" "redoc-json"
    [el "code" ""
       [collapser_button "collapse";
        el "ul" "obj collapsible"
          [el "li" ""
             [el "div" "hoverable "
                [property_span "pet"; Text ": ";
                 collapser_button "collapse";
                 el "ul" "obj collapsible"
                   [el "li" ""
                      [el "div" "hoverable "
                         [property_span "name"; Text ": ";
                          el "span" "token string" [Text (quoted "Rex")]]]]]];
           el "li" ""
             [el "div" "hoverable collapsed"
                [property_span "tags"; Text ": ";
                 collapser_button "expand";
                 el "ul" "array collapsible"
                   [el "li" ""
                      [el "div" "hoverable "
                         [el "span" "token string" [Text (quoted "a")]]];
                    el "li" ""
                      [el "div" "hoverable collapsed"
                         [collapser_button "expand";
                          el "ul" "obj collapsible"
                            [el "li" ""
                               [el "div" "hoverable "
                                  [property_span "k"; Text ": ";
                                   el "span" "token number"
                                     [Text "1"]]]]]]]]]]]].

(** ** Vocabulary of the statements about the viewer *)

Fixpoint no_whitespace (s : string) : bool :=
  match s with
  | EmptyString => true
  | String c r => negb (is_ascii_whitespace c) && no_whitespace r
  end.

(** A token a class list accepts: not empty, without whitespace. *)
Definition is_token (t : string) : Prop := t ≠ "" ∧ no_whitespace t = true.

(** The element at [r] has the class collapsed. *)
Definition collapsed_at (doc : Node) (r : Ref) : bool :=
  by_class "collapsed" doc r.

(** The class names of two lists of attributes are the same, but for
    collapsed. *)
Definition same_classes (a a' : list (string * string)) : Prop :=
  ∀ c, c ≠ "collapsed" →
       (c ∈ classList (Element "" a []) ↔ c ∈ classList (Element "" a' [])).

(** The attributes other than class and aria-label are the same in two
    lists of attributes. *)
Definition same_others (a a' : list (string * string)) : Prop :=
  ∀ k, k ≠ "class" → k ≠ "aria-label" → getAttribute a k = getAttribute a' k.

(** Two trees of the same elements and text, whose elements differ at most
    in the attribute aria-label and in having the class collapsed. *)
Inductive alike : Node → Node → Prop :=
| alike_text s : alike (Text s) (Text s)
| alike_element t a a' cs cs' :
    same_classes a a' → same_others a a' → Forall2 alike cs cs' →
    alike (Element t a cs) (Element t a' cs').

(** A change of a node that keeps its child nodes and leaves it alike. *)
Definition gentle (f : Node → Node) : Prop :=
  ∀ n, alike n (f n) ∧ childNodes_of (f n) = childNodes_of n.

(** What a selector reads of a node when it reads neither its child nodes
    nor the class collapsed. *)
Definition steady (sel : Node → bool) : Prop :=
  ∀ n n', alike n n' → sel n = sel n'.

(** * Properties *)

(** ** Members of objects *)


Lemma props_get_put_ne ps k k' x :
  k ≠ k' → props_get (props_put ps k x) k' = props_get ps k'.
Proof.
  intros Hne. induction ps as [|[k0 y] r IH]; simpl.
  - by rewrite decide_False.
  - destruct (decide (k0 = k)) as [->|Hk]; simpl.
    + by rewrite !decide_False.
    + destruct (decide (k0 = k')); done.
Qed.


(** A write leaves the other properties as they are. *)
Lemma props_get_own_put_ne ps k k' x :
  k ≠ k' → props_get (own_put ps k x) k' = props_get ps k'.
Proof.
  intros Hne. unfold own_put.
  destruct (props_get ps k); [by apply props_get_put_ne|].
  destruct (decide (k = "__proto__")); [done|by apply props_get_put_ne].
Qed.

(** The key [__proto__] adds no property. *)
Lemma own_put_proto ps x :
  props_get ps "__proto__" = None → own_put ps "__proto__" x = ps.
Proof. intros Hget. unfold own_put. by rewrite Hget. Qed.


(** ** Runs *)

Lemma bind_returned {A B} (t : list Event) (a : A) (f : A → Run B) :
  bind (t, Returned a) f = (t ++ trace (f a), outcome (f a)).
Proof. reflexivity. Qed.

Lemma bind_thrown {A B} (t : list Event) e (f : A → Run B) :
  bind (t, Thrown e) f = (t, Thrown e).
Proof. reflexivity. Qed.

(** A loop whose every round returns makes the calls of its rounds in order
    and folds their results. *)
Lemma for_of_returned {A S} (l : list A) (body : S → A → Run S)
    (calls : A → list Event) (step : S → A → S) (acc : S) :
  (∀ acc x, x ∈ l → body acc x = (calls x, Returned (step acc x))) →
  for_of l body acc = (concat (calls <$> l), Returned (foldl step acc l)).
Proof.
  revert acc. induction l as [|x r IH]; intros acc Hbody; [done|].
  simpl. rewrite Hbody by set_solver. rewrite bind_returned.
  rewrite IH by (intros; apply Hbody; set_solver). done.
Qed.

(** A loop stops at the first round that raises. *)
Lemma for_of_thrown {A S} (before : list A) (x : A) (after : list A)
    (body : S → A → Run S) (calls : A → list Event) (step : S → A → S)
    (t : list Event) e (acc : S) :
  (∀ acc y, y ∈ before → body acc y = (calls y, Returned (step acc y))) →
  (∀ acc, body acc x = (t, Thrown e)) →
  for_of (before ++ x :: after) body acc
  = (concat (calls <$> before) ++ t, Thrown e).
Proof.
  revert acc. induction before as [|y r IH]; intros acc Hbody Hx; simpl.
  - by rewrite Hx.
  - rewrite Hbody by set_solver. rewrite bind_returned.
    rewrite IH by (try done; intros; apply Hbody; set_solver).
    by rewrite <- app_assoc.
Qed.

(** ** Maps filled by a loop *)

Section Fill.
Context {A V : Type} (key : A → string) (val : A → V).

Lemma dom_fill acc l :
  dom (fill key val acc l)
  = (list_to_set (key <$> l) ∖ {[ "__proto__" ]}) ∪ dom acc.
Proof.
  revert acc. induction l as [|x r IH]; intros acc; simpl.
  - set_solver.
  - unfold fill in *. simpl. rewrite IH. unfold dict_put.
    destruct (decide (key x = "__proto__")) as [Hx|Hx].
    + set_solver.
    + rewrite dom_insert_L. set_solver.
Qed.




(** An entry of the map was written for some element, unless it was there
    before the loop. *)
Lemma lookup_fill_Some acc l k v :
  fill key val acc l !! k = Some v →
  (∃ x, x ∈ l ∧ key x = k ∧ k ≠ "__proto__" ∧ v = val x) ∨ acc !! k = Some v.
Proof.
  revert acc. induction l as [|x r IH]; intros acc Hv; [by right|].
  unfold fill in *. simpl in Hv.
  apply IH in Hv as [(y & Hy & Hk & Hproto & ->)|Hv].
  - left. exists y. set_solver.
  - unfold dict_put in Hv.
    destruct (decide (key x = "__proto__")) as [Hx|Hx]; [by right|].
    destruct (decide (key x = k)) as [<-|Hne].
    + rewrite lookup_insert_eq in Hv. injection Hv as <-.
      left. exists x. set_solver.
    + rewrite lookup_insert_ne in Hv by done. by right.
Qed.


End Fill.

(** ** The engine, path by path *)

Section Paths.
Context (svc : Collaborators).

Lemma has_variants_true root variants :
  oneOf root = Some variants → variants ≠ [] → has_variants root = true.
Proof.
  intros Hone Hne. unfold has_variants. rewrite Hone.
  apply bool_decide_eq_true. destruct variants; [done|simpl; lia].
Qed.

Lemma has_variants_empty root : oneOf root = Some [] → has_variants root = false.
Proof. intros Hone. unfold has_variants. by rewrite Hone. Qed.

(** A read in the state Generating collects, then generates. *)
Lemma examples_generating this root parser :
  Generating this root parser →
  examples svc this
  = (EvCollect root :: trace (generateExamples svc this),
     outcome (generateExamples svc this)).
Proof.
  intros (Hstatic & Hgen & Hschema & Hparser).
  unfold examples. rewrite Hstatic, Hgen, Hschema, Hparser. reflexivity.
Qed.

(** A round of the fan-out, by what the sampler and the write of the root
    discriminator do. *)
Lemma fan_out_round this parser root (examples : gmap string ExampleModel)
    subSchema :
  (resolvedSchema <- call_resolve svc subSchema ;;
   sample <- call_sample svc resolvedSchema (samplerOptions this)
               (spec parser) ;;
   sample <- step (set_root_discriminator svc root subSchema sample) ;;
   sample <- call_patch svc sample subSchema ;;
   ret (dict_put examples (title subSchema)
          (new_ExampleModel parser (JObj [("value", sample)])
             (name this) (_encoding this))))%run
  = match sampled svc this parser subSchema with
    | Returned sample =>
        match set_root_discriminator svc root subSchema sample with
        | Returned written =>
            (variant_calls svc this parser subSchema written,
             Returned
               (dict_put examples (title subSchema)
                  (variant_artifact svc this parser subSchema written)))
        | Thrown e =>
            ([EvResolve subSchema;
              EvSample (getSchemaWithActiveDiscriminators svc subSchema)
                (samplerOptions this) (spec parser)],
             Thrown e)
        end
    | Thrown e =>
        ([EvResolve subSchema;
          EvSample (getSchemaWithActiveDiscriminators svc subSchema)
            (samplerOptions this) (spec parser)],
         Thrown e)
    end.
Proof.
  unfold sampled, call_resolve, call_sample, call_patch, step.
  rewrite bind_returned.
  destruct (Sampler_sample svc _ _ _) as [sample|e]; [|reflexivity].
  rewrite bind_returned.
  destruct (set_root_discriminator svc root subSchema sample);
    reflexivity.
Qed.

(** The fan-out when the sampler and the write of the root discriminator
    return for every variant. *)
Lemma generateExamples_fan_out this root parser variants
    (sample_of written : SchemaModel → Json) :
  schema this = Some root → _parser this = Some parser →
  oneOf root = Some variants → variants ≠ [] →
  (∀ v, v ∈ variants → sampled svc this parser v = Returned (sample_of v)) →
  (∀ v, v ∈ variants →
        set_root_discriminator svc root v (sample_of v)
        = Returned (written v)) →
  generateExamples svc this
  = (concat ((λ v, variant_calls svc this parser v (written v))
               <$> variants),
     Returned
       (Some (fill title
                (λ v, variant_artifact svc this parser v (written v))
                ∅ variants))).
Proof.
  intros Hschema Hparser Hone Hne Hsample Hwrite.
  unfold generateExamples. rewrite Hschema, Hparser.
  rewrite (has_variants_true root variants) by done. rewrite Hone.
  cbn [default].
  rewrite (for_of_returned variants _
             (λ v, variant_calls svc this parser v (written v))
             (λ acc v, dict_put acc (title v)
                         (variant_artifact svc this parser v (written v)))).
  - rewrite bind_returned. cbn. by rewrite app_nil_r.
  - intros acc v Hv. rewrite fan_out_round.
    by rewrite (Hsample v Hv), (Hwrite v Hv).
Qed.

(** The fan-out when the sampler, or the write of the root discriminator,
    raises for a variant. *)
Lemma generateExamples_fan_out_thrown this root parser before v after e
    (sample_of written : SchemaModel → Json) :
  schema this = Some root → _parser this = Some parser →
  oneOf root = Some (before ++ v :: after) →
  (∀ w, w ∈ before → sampled svc this parser w = Returned (sample_of w)) →
  (∀ w, w ∈ before →
        set_root_discriminator svc root w (sample_of w)
        = Returned (written w)) →
  sampled svc this parser v = Thrown e
  ∨ (∃ sample, sampled svc this parser v = Returned sample ∧
               set_root_discriminator svc root v sample = Thrown e) →
  generateExamples svc this
  = (concat ((λ w, variant_calls svc this parser w (written w))
               <$> before)
     ++ [EvResolve v;
         EvSample (getSchemaWithActiveDiscriminators svc v)
           (samplerOptions this) (spec parser)],
     Thrown e).
Proof.
  intros Hschema Hparser Hone Hsample Hwrite Hthrown.
  unfold generateExamples. rewrite Hschema, Hparser.
  rewrite (has_variants_true root (before ++ v :: after))
    by (try done; by destruct before).
  rewrite Hone. cbn [default].
  rewrite (for_of_thrown before v after _
             (λ w, variant_calls svc this parser w (written w))
             (λ acc w, dict_put acc (title w)
                         (variant_artifact svc this parser w (written w)))
             [EvResolve v;
              EvSample (getSchemaWithActiveDiscriminators svc v)
                (samplerOptions this) (spec parser)] e).
  - by rewrite bind_thrown.
  - intros acc w Hw. rewrite fan_out_round.
    by rewrite (Hsample w Hw), (Hwrite w Hw).
  - intros acc. rewrite fan_out_round.
    destruct Hthrown as [->|(sample & -> & ->)]; reflexivity.
Qed.

(** The single path. *)
Lemma generateExamples_single this root parser :
  schema this = Some root → _parser this = Some parser →
  has_variants root = false →
  generateExamples svc this
  = match sampled svc this parser root with
    | Returned sample =>
        ([EvResolve root;
          EvSample (getSchemaWithActiveDiscriminators svc root)
            (samplerOptions this) (spec parser);
          EvPatch sample root],
         Returned
           (Some {[ "default" :=
                      default_artifact svc this parser root sample ]}))
    | Thrown e =>
        ([EvResolve root;
          EvSample (getSchemaWithActiveDiscriminators svc root)
            (samplerOptions this) (spec parser)],
         Thrown e)
    end.
Proof.
  intros Hschema Hparser Hnone.
  unfold generateExamples. rewrite Hschema, Hparser, Hnone.
  unfold sampled, call_resolve, call_sample, call_patch.
  rewrite bind_returned.
  destruct (Sampler_sample svc _ _ _); reflexivity.
Qed.

End Paths.

(** ** Sampler calls of a run *)

Section Faithful.
Context (svc : Collaborators).

Lemma faithful_ret {A} (a : A) : sampler_faithful svc (ret a).
Proof. left. constructor. Qed.

Lemma faithful_step {A} (o : Outcome A) : sampler_faithful svc (step o).
Proof. left. constructor. Qed.

Lemma faithful_bind {A B} (m : Run A) (f : A → Run B) :
  sampler_faithful svc m → (∀ a, sampler_faithful svc (f a)) →
  sampler_faithful svc (bind m f).
Proof.
  destruct m as [t [a|e]]; intros Hm Hf.
  2: { rewrite bind_thrown.
       destruct Hm as [Ht|(before & r & o & doc & e' & Ht & Hb & Hs & [= ->])];
         [by left|].
       right. by exists before, r, o, doc, e'. }
  rewrite bind_returned. specialize (Hf a).
  unfold sampler_faithful in *. cbn [outcome trace fst snd] in *.
  destruct Hm as [Ht|(? & ? & ? & ? & ? & _ & _ & _ & [=])].
  destruct Hf as [Hf|(before & r & o & doc & e & -> & Hbefore & Hthrown & He)].
  - left. by apply Forall_app.
  - right. exists (t ++ before), r, o, doc, e. rewrite app_assoc.
    split; [done|]. split; [by apply Forall_app|done].
Qed.

Lemma faithful_for_of {A S} (l : list A) (body : S → A → Run S) acc :
  (∀ acc x, sampler_faithful svc (body acc x)) →
  sampler_faithful svc (for_of l body acc).
Proof.
  intros Hbody. revert acc. induction l as [|x r IH]; intros acc.
  - apply faithful_ret.
  - simpl. apply faithful_bind; [apply Hbody|apply IH].
Qed.

Lemma faithful_call_sample r o doc :
  sampler_faithful svc (call_sample svc r o doc).
Proof.
  unfold sampler_faithful, call_sample. cbn [outcome trace fst snd].
  destruct (Sampler_sample svc r o doc) as [v|e] eqn:Hs.
  - left. constructor; [by exists v|constructor].
  - right. exists [], r, o, doc, e. by repeat split.
Qed.

Lemma faithful_pure {A} ev (a : A) :
  sample_returned svc ev → sampler_faithful svc ([ev], Returned a).
Proof. intros Hev. left. constructor; [done|constructor]. Qed.

Lemma faithful_generateExamples this :
  sampler_faithful svc (generateExamples svc this).
Proof.
  unfold generateExamples.
  destruct (schema this) as [root|]; [|apply faithful_ret].
  destruct (_parser this) as [parser|]; [|apply faithful_ret].
  destruct (has_variants root).
  - apply faithful_bind; [|intros; apply faithful_ret].
    apply faithful_for_of. intros acc sub.
    apply faithful_bind; [by apply faithful_pure|intros].
    apply faithful_bind; [apply faithful_call_sample|intros].
    apply faithful_bind; [apply faithful_step|intros].
    apply faithful_bind; [by apply faithful_pure|intros; apply faithful_ret].
  - apply faithful_bind; [by apply faithful_pure|intros].
    apply faithful_bind; [apply faithful_call_sample|intros].
    apply faithful_bind; [by apply faithful_pure|intros; apply faithful_ret].
Qed.

Lemma faithful_examples this : sampler_faithful svc (examples svc this).
Proof.
  unfold examples.
  destruct (_staticExamples this); [apply faithful_ret|].
  destruct (_shouldGenerateExamples this); [|apply faithful_ret].
  destruct (schema this) as [root|] eqn:Hroot; [|apply faithful_ret].
  destruct (_parser this); [|apply faithful_ret].
  apply faithful_bind; [by apply faithful_pure|intros].
  apply faithful_generateExamples.
Qed.

(** Events of a bound run come from its parts. *)
Lemma elem_of_trace_bind {A B} (m : Run A) (f : A → Run B) ev :
  ev ∈ trace (bind m f) → ev ∈ trace m ∨ ∃ a, ev ∈ trace (f a).
Proof.
  destruct m as [t [a|e]]; cbn [bind trace fst]; [|by left].
  rewrite elem_of_app. intros [?|?]; [by left|right; by exists a].
Qed.

Lemma elem_of_trace_for_of {A S} (l : list A) (body : S → A → Run S) acc ev :
  ev ∈ trace (for_of l body acc) → ∃ acc' x, ev ∈ trace (body acc' x).
Proof.
  revert acc. induction l as [|x r IH]; intros acc; simpl.
  - by intros ?%elem_of_nil.
  - intros [?|[a Ha]]%elem_of_trace_bind; [by exists acc, x|by eapply IH].
Qed.


End Faithful.

(** ** Sets of tags *)


Lemma not_polymorphic_has_variants root :
  not_polymorphic root → has_variants root = false.
Proof. unfold has_variants. by intros [->| ->]. Qed.

(** ** The walk of section 4.4 at the root of a sample *)





(** * The claims *)

Section Claims.
Context (svc : Collaborators).



(** C2. A media type constructed with static examples, plural or singular,
    keeps the artifacts built from them, and a read returns exactly those
    without a call to the collector, the resolver, the sampler or the
    patcher, whatever the schema. *)
Theorem static_examples_short_circuit parser name isRequestType info options :
  is_Some (info_examples info) ∨ is_Some (info_example info) →
  ∃ static,
    _staticExamples
      (new_MediaTypeModel svc parser name isRequestType info options)
    = Some static ∧
    static
    = match info_examples info with
      | Some supplied =>
          mapValues supplied
            (λ example,
               new_ExampleModel parser example name (info_encoding info))
      | None =>
          {[ "default" :=
               new_ExampleModel parser
                 (JObj [("value",
                         deref parser (default JUndefined (info_example info)))])
                 name (info_encoding info) ]}
      end ∧
    examples svc
      (new_MediaTypeModel svc parser name isRequestType info options)
    = ([], Returned (Some static)).
Proof.
  intros Hsupplied. unfold examples, new_MediaTypeModel. cbn.
  destruct (info_examples info) as [supplied|].
  - eexists. repeat split.
  - destruct Hsupplied as [[? [=]]|[example Hex]]. rewrite Hex.
    eexists. repeat split.
Qed.

(** C3. With no static examples, generation enabled, a schema whose root is
    not polymorphic and a sampler that returns, a read yields a map with
    exactly one artifact, under the key default. *)
Theorem single_artifact_named_default this root parser sample :
  Generating this root parser →
  not_polymorphic root →
  sampled svc this parser root = Returned sample →
  ∃ m,
    outcome (examples svc this) = Returned (Some m) ∧
    m = {[ "default" := default_artifact svc this parser root sample ]} ∧
    size m = 1 ∧
    dom m = {[ "default" ]}.
Proof.
  intros Hgen Hroot Hsample.
  pose proof Hgen as (_ & _ & Hschema & Hparser).
  rewrite (examples_generating svc this root parser Hgen).
  rewrite (generateExamples_single svc this root parser) by
    (try done; by apply not_polymorphic_has_variants).
  rewrite Hsample. cbn [outcome snd].
  eexists. split; [reflexivity|]. split; [reflexivity|].
  by rewrite map_size_singleton, dom_singleton_L.
Qed.


(** C5. With no static examples, a read returns undefined, raising nothing
    and calling nothing, whenever generation is not enabled, the schema is
    missing or the parser is missing; and [generateExamples] itself returns
    undefined without a schema or a parser. *)
Theorem no_examples_without_context this :
  _staticExamples this = None →
  _shouldGenerateExamples this = false ∨ schema this = None
  ∨ _parser this = None →
  examples svc this = ([], Returned None) ∧
  (schema this = None ∨ _parser this = None →
   generateExamples svc this = ([], Returned None)).
Proof.
  intros Hstatic Hmissing. split.
  - unfold examples. rewrite Hstatic.
    destruct Hmissing as [-> | [-> | ->]]; [done| |].
    + by destruct (_shouldGenerateExamples this).
    + by destruct (_shouldGenerateExamples this), (schema this).
  - unfold generateExamples. intros [-> | ->]; [done|].
    by destruct (schema this).
Qed.

(** C6, as the code has it. A root whose list of variants is empty takes the
    single path: after the collector, one resolution and one sampler call on
    the root itself and no round per variant. If the sampler returns, the
    read yields the map with one artifact under the key default, built from
    that sample; if it raises, the read raises. The result is never
    undefined. *)
Theorem empty_variant_list_takes_single_path this root parser :
  Generating this root parser →
  oneOf root = Some [] →
  examples svc this
  = match sampled svc this parser root with
    | Returned sample =>
        ([EvCollect root; EvResolve root;
          EvSample (getSchemaWithActiveDiscriminators svc root)
            (samplerOptions this) (spec parser);
          EvPatch sample root],
         Returned
           (Some {[ "default" :=
                      default_artifact svc this parser root sample ]}))
    | Thrown e =>
        ([EvCollect root; EvResolve root;
          EvSample (getSchemaWithActiveDiscriminators svc root)
            (samplerOptions this) (spec parser)],
         Thrown e)
    end ∧
  outcome (examples svc this) ≠ Returned None.
Proof.
  intros Hgen Hone.
  pose proof Hgen as (_ & _ & Hschema & Hparser).
  rewrite (examples_generating svc this root parser Hgen).
  rewrite (generateExamples_single svc this root parser) by
    (try done; by apply has_variants_empty).
  destruct (sampled svc this parser root); by split.
Qed.

(** C7. A read in the state Generating calls the collector on the root
    schema first: the call opens the trace, the calls of [generateExamples]
    (resolutions and samplings among them) follow it and hold no second call
    to the collector, and the read ends as [generateExamples] does. What the
    collector returns is dropped: with any other collector in its place the
    read is the same. *)
Theorem collector_runs_first this root parser :
  Generating this root parser →
  trace (examples svc this)
  = EvCollect root :: trace (generateExamples svc this) ∧
  Forall (λ ev, is_collect ev = false) (trace (generateExamples svc this)) ∧
  outcome (examples svc this) = outcome (generateExamples svc this) ∧
  ∀ collect, examples (with_collector svc collect) this = examples svc this.
Proof.
  intros Hgen. rewrite (examples_generating svc this root parser Hgen).
  split; [done|]. split; [|split; [done|]].
  - apply Forall_forall. intros ev Hin.
    unfold generateExamples in Hin.
    destruct (schema this) as [s|]; [|by apply elem_of_nil in Hin].
    destruct (_parser this) as [p|]; [|by apply elem_of_nil in Hin].
    assert (Hround : ∀ {A} (s' : SchemaModel) (write : Json → Outcome Json)
                       (k : Json → Run A),
              (∀ x, trace (k x) = []) →
              ev ∈ trace (resolved <- call_resolve svc s' ;;
                          x <- call_sample svc resolved (samplerOptions this)
                                 (spec p) ;;
                          x <- step (write x) ;;
                          x <- call_patch svc x s' ;; k x)%run →
              is_collect ev = false).
    { intros A s' write k Hk Hev.
      apply elem_of_trace_bind in Hev as [Hev|[a Hev]];
        [by apply list_elem_of_singleton in Hev as ->|].
      apply elem_of_trace_bind in Hev as [Hev|[b Hev]];
        [by apply list_elem_of_singleton in Hev as ->|].
      apply elem_of_trace_bind in Hev as [Hev|[b' Hev]];
        [by apply elem_of_nil in Hev|].
      apply elem_of_trace_bind in Hev as [Hev|[c Hev]];
        [by apply list_elem_of_singleton in Hev as ->|].
      rewrite Hk in Hev. by apply elem_of_nil in Hev. }
    destruct (has_variants s).
    + apply elem_of_trace_bind in Hin as [Hin|[a Hin]];
        [|by apply elem_of_nil in Hin].
      apply elem_of_trace_for_of in Hin as (acc & sub & Hin).
      by eapply (Hround _ sub (set_root_discriminator svc s sub)) in Hin.
    + by eapply (Hround _ s Returned) in Hin.
  - intros collect.
    by rewrite (examples_generating (with_collector svc collect) this root
                  parser Hgen).
Qed.

(** C8. If a sampler call of a read raises, the read raises the same error:
    the call is the last of the trace, every sampler call before it
    returned, so the failing call is made once, and the read returns no
    map. *)
Theorem sampler_error_propagates this resolved options doc e :
  EvSample resolved options doc ∈ trace (examples svc this) →
  Sampler_sample svc resolved options doc = Thrown e →
  ∃ before,
    examples svc this = (before ++ [EvSample resolved options doc], Thrown e) ∧
    Forall (sample_returned svc) before ∧
    EvSample resolved options doc ∉ before.
Proof.
  intros Hin Hthrown.
  assert (Hnot : ∀ t, Forall (sample_returned svc) t →
                      EvSample resolved options doc ∉ t).
  { intros t Ht Hev. rewrite Forall_forall in Ht.
    destruct (Ht _ Hev) as [v Hv]. congruence. }
  pose proof (faithful_examples svc this) as Hfaithful.
  unfold sampler_faithful in Hfaithful.
  destruct (examples svc this) as [t o]; cbn [outcome trace fst snd] in *.
  destruct Hfaithful
    as [Hall|(before & r & o' & d & e' & -> & Hbefore & He' & ->)].
  - by apply Hnot in Hin.
  - apply elem_of_app in Hin as [Hin|Hin]; [by apply Hnot in Hin|].
    apply list_elem_of_singleton in Hin. injection Hin as <- <- <-.
    exists before. rewrite Hthrown in He'. injection He' as <-.
    split; [done|]. split; [done|by apply Hnot].
Qed.


(** C10. The constructor enables generation exactly when neither examples
    nor example is supplied and the name of the media type is JSON-like.
    With a name that is not JSON-like and nothing supplied a read returns
    undefined, whatever the schema. With examples supplied the static
    examples are built from them alone: the singular example has no part in
    them. *)
Theorem generation_gate parser name isRequestType info options :
  (_shouldGenerateExamples
     (new_MediaTypeModel svc parser name isRequestType info options) = true
   ↔ info_examples info = None ∧ info_example info = None ∧
     isJsonLike svc name = true) ∧
  (info_examples info = None → info_example info = None →
   isJsonLike svc name = false →
   examples svc (new_MediaTypeModel svc parser name isRequestType info options)
   = ([], Returned None)) ∧
  (∀ supplied,
     info_examples info = Some supplied →
     ∀ other,
       _staticExamples
         (new_MediaTypeModel svc parser name isRequestType
            (with_example info other) options)
       = Some (mapValues supplied
                 (λ example,
                    new_ExampleModel parser example name (info_encoding info)))).
Proof.
  split; [|split].
  - cbn. destruct (info_examples info), (info_example info); naive_solver.
  - intros Hexs Hex Hname. unfold examples. cbn. by rewrite Hexs, Hex, Hname.
  - intros supplied Hsupplied other. cbn. by rewrite Hsupplied.
Qed.

End Claims.

(** * The claims on the fixtures *)

Lemma generating_fixture root :
  Generating (media_type_of (Some root)) root fixture_parser.
Proof. by repeat split. Qed.




(** The walk of section 4.4 does not keep the property the engine wrote in
    every sample: the sample of a variant that is polymorphic itself over
    the same property ends with the tag of the active variant of that
    variant. *)
Remark spec_walk_overwrites_in_polymorphic_variant :
  ∃ m,
    outcome (examples fixture (media_type_of (Some Kennel)))
    = Returned (Some m) ∧
    value <$> m !! "Dog"
    = Some (JObj [("coat", JStr "string"); ("petType", JStr "Poodle")]).
Proof. eexists. split; reflexivity. Qed.

(** C2 on a description with examples and an example, and on one with an
    example alone. *)
Lemma static_examples_short_circuit_witness :
  (∃ static,
     examples fixture
       (new_MediaTypeModel fixture fixture_parser "application/json" true
          info_with_both fixture_options)
     = ([], Returned (Some static)) ∧
     value <$> static !! "tom" = Some (JObj [("name", JStr "Tom")])) ∧
  (∃ static,
     examples fixture
       (new_MediaTypeModel fixture fixture_parser "application/json" true
          info_with_example fixture_options)
     = ([], Returned (Some static)) ∧
     value <$> static !! "default" = Some (JObj [("name", JStr "Rex")])).
Proof.
  split.
  - destruct (static_examples_short_circuit fixture fixture_parser
                "application/json" true info_with_both fixture_options)
      as (static & _ & -> & Hread).
    + left. by eexists.
    + eexists. split; [exact Hread|]. reflexivity.
  - destruct (static_examples_short_circuit fixture fixture_parser
                "application/json" true info_with_example fixture_options)
      as (static & _ & -> & Hread).
    + right. by eexists.
    + eexists. split; [exact Hread|]. reflexivity.
Defined.

(** C3 on Cat, a root without variants. *)
Lemma single_artifact_named_default_witness :
  ∃ m,
    outcome (examples fixture (media_type_of (Some Cat))) = Returned (Some m) ∧
    size m = 1 ∧
    value <$> m !! "default"
    = Some (JObj [("petType", JStr "string");
                  ("huntingSkill", JStr "string")]).
Proof.
  destruct (single_artifact_named_default fixture (media_type_of (Some Cat))
              Cat fixture_parser (fixture_value (spec_resolve Cat)))
    as (m & Hrun & -> & Hsize & _).
  - apply generating_fixture.
  - by left.
  - reflexivity.
  - eexists. split; [exact Hrun|]. split; [exact Hsize|reflexivity].
Defined.


(** C5 on a media type without a schema. *)
Lemma no_examples_without_context_witness :
  examples fixture (media_type_of None) = ([], Returned None).
Proof.
  destruct (no_examples_without_context fixture (media_type_of None))
    as [Hread _].
  - reflexivity.
  - right. by left.
  - exact Hread.
Defined.

(** C6 on Hollow: the single path. *)
Lemma empty_variant_list_takes_single_path_witness :
  trace (examples fixture (media_type_of (Some Hollow)))
  = [EvCollect Hollow; EvResolve Hollow;
     EvSample (spec_resolve Hollow)
       (samplerOptions (media_type_of (Some Hollow))) (spec fixture_parser);
     EvPatch (JObj [("name", JStr "string")]) Hollow].
Proof.
  destruct (empty_variant_list_takes_single_path fixture
              (media_type_of (Some Hollow)) Hollow fixture_parser)
    as [Hrun _].
  - apply generating_fixture.
  - reflexivity.
  - by rewrite Hrun.
Defined.

(** C6 as stated fails on Hollow: with its list of variants empty, a read
    in the state Generating yields an artifact under default, with the value
    sampled for the fields of the root, where the claim has the result of no
    examples. *)
Lemma empty_variant_list_yields_default_artifact :
  Generating (media_type_of (Some Hollow)) Hollow fixture_parser ∧
  oneOf Hollow = Some [] ∧
  outcome (examples fixture (media_type_of (Some Hollow)))
  = Returned
      (Some {[ "default" :=
                 {| value := JObj [("name", JStr "string")];
                    mime := "application/json";
                    encoding := None |} ]}) ∧
  outcome (examples fixture (media_type_of (Some Hollow))) ≠ Returned None.
Proof. by repeat split. Qed.

(** C7 on Pet. *)
Lemma collector_runs_first_witness :
  head (trace (examples fixture (media_type_of (Some Pet))))
  = Some (EvCollect Pet) ∧
  examples (with_collector fixture (λ _, [])) (media_type_of (Some Pet))
  = examples fixture (media_type_of (Some Pet)).
Proof.
  destruct (collector_runs_first fixture (media_type_of (Some Pet)) Pet
              fixture_parser (generating_fixture Pet))
    as (Htrace & _ & _ & Hdropped).
  split; [by rewrite Htrace|apply Hdropped].
Defined.

(** C8 on Brittle: the sampler raises on the second variant. *)
Lemma sampler_error_propagates_witness :
  outcome (examples fixture (media_type_of (Some Brittle)))
  = Thrown "unsupported construct" ∧
  length (trace (examples fixture (media_type_of (Some Brittle)))) = 6.
Proof.
  destruct (sampler_error_propagates fixture (media_type_of (Some Brittle))
              (spec_resolve (leaf "Unsupported"))
              (samplerOptions (media_type_of (Some Brittle)))
              (spec fixture_parser) "unsupported construct")
    as (before & Hrun & _ & _).
  - do 5 apply list_elem_of_further. apply list_elem_of_here.
  - reflexivity.
  - rewrite Hrun. split; [reflexivity|].
    by rewrite <- Hrun.
Defined.



(** C10 on a name that is not JSON-like and on a description with both
    examples and example. *)
Lemma generation_gate_witness :
  examples fixture
    (new_MediaTypeModel fixture fixture_parser "text/plain" true info_plain
       fixture_options)
  = ([], Returned None) ∧
  _staticExamples
    (new_MediaTypeModel fixture fixture_parser "application/json" true
       (with_example info_with_both (Some (JStr "other"))) fixture_options)
  = _staticExamples
      (new_MediaTypeModel fixture fixture_parser "application/json" true
         (with_example info_with_both None) fixture_options).
Proof.
  split.
  - by apply (generation_gate fixture fixture_parser "text/plain" true
                info_plain fixture_options).
  - destruct (generation_gate fixture fixture_parser "application/json" true
                info_with_both fixture_options) as (_ & _ & Hplural).
    by rewrite (Hplural _ eq_refl (Some (JStr "other"))),
               (Hplural _ eq_refl None).
Defined.

(** * Properties of the viewer *)

(** ** Class lists *)

Lemma append_cons c (s t : string) : String c s +:+ t = String c (s +:+ t).
Proof. reflexivity. Qed.

Lemma append_empty_l (s : string) : "" +:+ s = s.
Proof. reflexivity. Qed.

Lemma append_empty_r (s : string) : s +:+ "" = s.
Proof.
  induction s as [|c s IH]; [done|]. by rewrite append_cons, IH.
Qed.

Lemma append_assoc (s t u : string) : (s +:+ t) +:+ u = s +:+ (t +:+ u).
Proof.
  induction s as [|c s IH]; [done|]. by rewrite !append_cons, IH.
Qed.

Lemma no_whitespace_append s t :
  no_whitespace s = true → no_whitespace t = true →
  no_whitespace (s +:+ t) = true.
Proof.
  induction s as [|c s IH]; [done|]. rewrite append_cons. simpl.
  intros [Hc Hs]%andb_true_iff Ht. rewrite Hc. by apply IH.
Qed.

(** The words that are split off are tokens. *)
Lemma split_on_whitespace_tokens s word :
  no_whitespace word = true → Forall is_token (split_on_whitespace s word).
Proof.
  revert word. induction s as [|c s IH]; intros word Hword; simpl.
  - destruct (decide (word = "")); repeat constructor; done.
  - destruct (is_ascii_whitespace c) eqn:Hc.
    + destruct (decide (word = "")); [by apply IH|].
      constructor; [done|by apply IH].
    + apply IH. apply no_whitespace_append; [done|].
      simpl. by rewrite Hc.
Qed.

Lemma split_on_whitespace_word t rest word :
  no_whitespace t = true →
  split_on_whitespace (t +:+ rest) word
  = split_on_whitespace rest (word +:+ t).
Proof.
  revert word. induction t as [|c t IH]; intros word Ht.
  - by rewrite append_empty_r.
  - simpl in Ht. apply andb_true_iff in Ht as [Hc Ht].
    apply negb_true_iff in Hc. rewrite append_cons. simpl.
    rewrite Hc, IH by done. by rewrite append_assoc.
Qed.

(** Tokens joined by a space are split into the same tokens. *)
Lemma split_on_whitespace_join l :
  Forall is_token l → split_on_whitespace (join " " l) "" = l.
Proof.
  induction 1 as [|t l [Hne Hws] Hl IH]; [done|].
  destruct l as [|u l].
  - simpl. rewrite <- (append_empty_r t) at 1.
    rewrite split_on_whitespace_word by done. simpl.
    by rewrite decide_False.
  - change (join " " (t :: u :: l)) with (t +:+ " " +:+ join " " (u :: l)).
    rewrite split_on_whitespace_word by done.
    rewrite append_cons, !append_empty_l. cbn [split_on_whitespace].
    change (is_ascii_whitespace " ") with true. cbn iota.
    rewrite decide_False by done. by rewrite IH.
Qed.

Lemma elem_of_ordered_set x l : x ∈ ordered_set l ↔ x ∈ l.
Proof.
  induction l as [|y l IH]; simpl; [done|].
  rewrite !elem_of_cons, list_elem_of_filter, IH.
  destruct (decide (x = y)); naive_solver.
Qed.

Lemma NoDup_ordered_set l : NoDup (ordered_set l).
Proof.
  induction l as [|y l IH]; simpl; constructor.
  - rewrite list_elem_of_filter. naive_solver.
  - by apply NoDup_filter.
Qed.

Lemma filter_other_notin (x : string) (l : list string) :
  x ∉ l → filter (λ y, y ≠ x) l = l.
Proof.
  induction l as [|y l IH]; [done|]. intros Hx.
  rewrite filter_cons_True by set_solver. f_equal. apply IH. set_solver.
Qed.

Lemma ordered_set_NoDup l : NoDup l → ordered_set l = l.
Proof.
  induction 1 as [|x l Hx Hl IH]; simpl; [done|].
  by rewrite IH, filter_other_notin.
Qed.

Lemma getAttribute_set_eq a k v : getAttribute (set_attribute a k v) k = Some v.
Proof.
  induction a as [|[k' v'] a IH]; simpl.
  - by rewrite decide_True.
  - destruct (decide (k' = k)); simpl; [by rewrite decide_True|].
    by rewrite decide_False.
Qed.

Lemma getAttribute_set_ne a k k' v :
  k ≠ k' → getAttribute (set_attribute a k v) k' = getAttribute a k'.
Proof.
  intros Hne. induction a as [|[k0 v0] a IH]; simpl.
  - by rewrite decide_False.
  - destruct (decide (k0 = k)) as [->|]; simpl.
    + by rewrite !decide_False.
    + by destruct (decide (k0 = k')).
Qed.

Lemma classList_tokens n : Forall is_token (classList n).
Proof.
  unfold classList. apply Forall_forall. intros t Ht.
  apply (proj1 (elem_of_ordered_set _ _)) in Ht.
  pose proof (split_on_whitespace_tokens (className n) "" eq_refl) as Hall.
  rewrite Forall_forall in Hall. by apply Hall.
Qed.

Lemma NoDup_classList n : NoDup (classList n).
Proof. apply NoDup_ordered_set. Qed.

(** The class list after its update steps is the token set given. *)
Lemma classList_update n tokens :
  is_element n = true → NoDup tokens → Forall is_token tokens →
  classList (update_classList n tokens) = tokens.
Proof.
  destruct n as [t a cs|]; [|done]. intros _ Hnodup Htokens.
  unfold update_classList.
  assert (Hset : classList (Element t (set_attribute a "class"
                                         (join " " tokens)) cs) = tokens).
  { unfold classList, className. cbn [attrs_of].
    rewrite getAttribute_set_eq. change (default "" (Some ?x)) with x.
    rewrite split_on_whitespace_join by done. by apply ordered_set_NoDup. }
  destruct (getAttribute a "class") as [v|] eqn:Hclass; [done|].
  destruct tokens; [|done].
  unfold classList, className. cbn [attrs_of]. by rewrite Hclass.
Qed.

Lemma classList_remove_spec token n :
  is_element n = true →
  classList (classList_remove token n)
  = filter (λ t, t ≠ token) (classList n).
Proof.
  intros Hn. apply classList_update; [done| |].
  - apply NoDup_filter, NoDup_classList.
  - eapply Forall_impl; [|done]. apply Forall_forall.
    intros t [_ Ht]%list_elem_of_filter.
    pose proof (classList_tokens n) as Hall.
    rewrite Forall_forall in Hall. by apply Hall.
Qed.

Lemma classList_add_spec token n :
  is_element n = true → is_token token →
  classList (classList_add token n)
  = if classList_contains token n then classList n
    else classList n ++ [token].
Proof.
  intros Hn Htoken. unfold classList_add.
  destruct (classList_contains token n) eqn:Hin.
  - apply classList_update; [done|apply NoDup_classList|apply classList_tokens].
  - apply classList_update; [done| |].
    + apply NoDup_app. split; [apply NoDup_classList|].
      split; [|apply NoDup_singleton].
      intros t Ht ->%list_elem_of_singleton.
      by apply bool_decide_eq_false in Hin.
    + apply Forall_app. split; [apply classList_tokens|by constructor].
Qed.

Lemma classList_setAttribute k v n :
  k ≠ "class" → classList (setAttribute k v n) = classList n.
Proof.
  intros Hk. destruct n as [t a cs|]; [|done].
  unfold classList, className. cbn [setAttribute attrs_of].
  by rewrite getAttribute_set_ne.
Qed.

(** ** Trees *)

Lemma Node_induction (P : Node → Prop) :
  (∀ s, P (Text s)) →
  (∀ t a cs, Forall P cs → P (Element t a cs)) →
  ∀ n, P n.
Proof.
  intros Htext Helement. fix IH 1. intros [t a cs|s]; [|apply Htext].
  apply Helement. induction cs as [|c cs IHcs]; constructor; [apply IH|exact IHcs].
Qed.

Lemma descend_app n w1 w2 :
  descend n (w1 ++ w2) = descend n w1 ≫= λ m, descend m w2.
Proof.
  revert n. induction w1 as [|i w1 IH]; intros n; [done|].
  simpl. destruct (childNodes_of n !! i); [apply IH|done].
Qed.

Lemma node_at_cons doc i r :
  node_at doc (i :: r) = node_at doc r ≫= λ p, childNodes_of p !! i.
Proof.
  unfold node_at. rewrite reverse_cons, descend_app.
  destruct (descend doc (reverse r)) as [p|]; [|done].
  simpl. by destruct (childNodes_of p !! i).
Qed.

(** The node at the place of a change is the image of the node there. *)
Lemma descend_change_eq n w f : descend (change n w f) w = f <$> descend n w.
Proof.
  revert n. induction w as [|i w IH]; intros n; [reflexivity|].
  destruct n as [t a cs|s]; [|reflexivity]. simpl.
  rewrite list_lookup_alter_eq. destruct (cs !! i) as [c|]; [apply IH|done].
Qed.

(** Elsewhere a change that keeps the child nodes leaves whether a node is an
    element, and its attributes, as they were. *)
Lemma descend_change_ne n w w' f :
  (∀ m, childNodes_of (f m) = childNodes_of m) → w' ≠ w →
  (λ m, (is_element m, attrs_of m)) <$> descend (change n w f) w'
  = (λ m, (is_element m, attrs_of m)) <$> descend n w'.
Proof.
  intros Hf. revert n w'. induction w as [|i w IH]; intros n w' Hne.
  - destruct w' as [|j w']; [done|]. simpl. by rewrite Hf.
  - destruct n as [t a cs|s]; [|done].
    destruct w' as [|j w']; [done|]. simpl.
    destruct (decide (j = i)) as [->|Hj].
    + rewrite list_lookup_alter_eq. destruct (cs !! i) as [c|]; [|done].
      apply IH. congruence.
    + by rewrite list_lookup_alter_ne.
Qed.

Lemma node_at_change_eq doc r f :
  node_at (change_at doc r f) r = f <$> node_at doc r.
Proof. apply descend_change_eq. Qed.

Lemma node_at_change_ne doc r r' f :
  (∀ m, childNodes_of (f m) = childNodes_of m) → r' ≠ r →
  (λ m, (is_element m, attrs_of m)) <$> node_at (change_at doc r f) r'
  = (λ m, (is_element m, attrs_of m)) <$> node_at doc r'.
Proof.
  intros Hf Hne. apply descend_change_ne; [done|].
  intros Heq. apply Hne. by apply (inj reverse).
Qed.

(** ** Trees that are alike *)

Lemma alike_refl n : alike n n.
Proof.
  induction n as [s|t a cs IH] using Node_induction; constructor;
    [done|done|].
  induction IH; constructor; done.
Qed.

Lemma alike_trans n1 n2 n3 : alike n1 n2 → alike n2 n3 → alike n1 n3.
Proof.
  revert n2 n3. induction n1 as [s|t a cs IH] using Node_induction;
    intros n2 n3 H12 H23.
  - inversion H12; subst. exact H23.
  - inversion H12 as [|? ? a2 ? cs2 Ha12 Ho12 Hcs12]; subst.
    inversion H23 as [|? ? a3 ? cs3 Ha23 Ho23 Hcs23]; subst.
    constructor.
    + intros c Hc. by rewrite (Ha12 c Hc), (Ha23 c Hc).
    + intros k Hclass Hlabel.
      by rewrite (Ho12 k Hclass Hlabel), (Ho23 k Hclass Hlabel).
    + clear H12 H23 Ha12 Ha23 Ho12 Ho23. revert cs3 Hcs23.
      induction Hcs12 as [|c c2 cs cs2 Hc Hcs IHcs]; intros cs3 Hcs23.
      * by inversion Hcs23.
      * inversion Hcs23; subst. inversion IH; subst.
        constructor; [eauto|]. by apply IHcs.
Qed.

Lemma alike_is_element n n' : alike n n' → is_element n = is_element n'.
Proof. by destruct 1. Qed.

Lemma alike_has_tag t : steady (has_tag t).
Proof. by intros n n' []. Qed.

Lemma alike_classList_contains c :
  c ≠ "collapsed" → steady (classList_contains c).
Proof.
  intros Hc n n' [s|t a a' cs cs' Ha _]; [done|].
  unfold classList_contains. apply bool_decide_ext.
  unfold classList, className in *. cbn [attrs_of] in *. by apply Ha.
Qed.

Lemma alike_ul_collapsible : steady ul_collapsible.
Proof.
  intros n n' Hn. unfold ul_collapsible.
  by rewrite (alike_has_tag "ul" n n'),
    (alike_classList_contains "collapsible" ltac:(done) n n').
Qed.

Lemma alike_textContent n n' : alike n n' → textContent n = textContent n'.
Proof.
  revert n'. induction n as [s|t a cs IH] using Node_induction;
    intros n' Hn; inversion Hn as [|? ? ? ? cs' _ _ Hcs]; subst; [done|].
  simpl. f_equal. clear Hn.
  induction Hcs as [|c c' cs cs' Hc Hcs IHcs]; [done|].
  inversion IH; subst. rewrite !fmap_cons. f_equal; eauto.
Qed.

Lemma alike_childNodes n n' :
  alike n n' → Forall2 alike (childNodes_of n) (childNodes_of n').
Proof. destruct 1; [constructor|done]. Qed.

Lemma alike_descendants n n' r :
  alike n n' → descendants n r = descendants n' r.
Proof.
  revert n' r. induction n as [s|t a cs IH] using Node_induction;
    intros n' r Hn; inversion Hn as [|? ? ? ? cs' _ _ Hcs]; subst; [done|].
  simpl. generalize 0. clear Hn.
  induction Hcs as [|c c' cs cs' Hc Hcs IHcs]; intros i; [done|].
  inversion IH as [|? ? IHc IHr]; subst.
  rewrite (alike_is_element c c' Hc), (IHc c' (i :: r) Hc).
  f_equal. by apply IHcs.
Qed.

Lemma alike_index_in_children n n' i :
  alike n n' → index_in_children n i = index_in_children n' i.
Proof.
  intros Hn%alike_childNodes. unfold index_in_children.
  revert i. induction Hn as [|c c' cs cs' Hc Hcs IH]; intros i.
  - by rewrite !take_nil.
  - destruct i as [|i]; [done|]. rewrite !firstn_cons, !filter_cons.
    rewrite (alike_is_element c c' Hc).
    destruct (decide (is_element c' = true)); simpl; by rewrite IH.
Qed.

Lemma alike_descend n n' w :
  alike n n' → option_Forall2 alike (descend n w) (descend n' w).
Proof.
  revert n n'. induction w as [|i w IH]; intros n n' Hn; [by constructor|].
  simpl.
  destruct (proj1 (Forall2_lookup _ _ _) (alike_childNodes n n' Hn) i)
    as [c c' Hc|]; [by apply IH|constructor].
Qed.

Lemma alike_node_at doc doc' r :
  alike doc doc' → option_Forall2 alike (node_at doc r) (node_at doc' r).
Proof. apply alike_descend. Qed.

(** Trees that are alike have, node by node, the same attributes but for
    class and aria-label. *)
Lemma alike_attributes doc doc' r k :
  alike doc doc' → k ≠ "class" → k ≠ "aria-label" →
  (λ n, getAttribute (attrs_of n) k) <$> node_at doc r
  = (λ n, getAttribute (attrs_of n) k) <$> node_at doc' r.
Proof.
  intros Hdoc Hclass Hlabel.
  destruct (alike_node_at doc doc' r Hdoc) as [n n' Hn|]; [|done].
  destruct Hn as [s|t a a' cs cs' _ Hothers _]; [done|].
  simpl. f_equal. by apply Hothers.
Qed.

Lemma alike_matches sel doc doc' r :
  steady sel → alike doc doc' → matches sel doc r = matches sel doc' r.
Proof.
  intros Hsel Hdoc. unfold matches.
  destruct (alike_node_at doc doc' r Hdoc) as [n n' Hn|]; [|done].
  by rewrite (alike_is_element n n'), (Hsel n n').
Qed.

Lemma alike_closest sel doc doc' r :
  steady sel → alike doc doc' → closest sel doc r = closest sel doc' r.
Proof.
  intros Hsel Hdoc. induction r as [|i r IH]; simpl;
    rewrite (alike_matches sel doc doc') by done; [done|by rewrite IH].
Qed.

Lemma alike_descendants_at doc doc' r :
  alike doc doc' → descendants_at doc r = descendants_at doc' r.
Proof.
  intros Hdoc. unfold descendants_at.
  destruct (alike_node_at doc doc' r Hdoc) as [n n' Hn|]; [|done].
  by apply alike_descendants.
Qed.

Lemma alike_by_class c doc doc' q :
  c ≠ "collapsed" → alike doc doc' → by_class c doc q = by_class c doc' q.
Proof.
  intros Hc Hdoc. by apply alike_matches; [apply alike_classList_contains|].
Qed.

Lemma alike_querySelectorAll (sel sel' : Ref → bool) doc doc' r :
  alike doc doc' → (∀ q, sel q = sel' q) →
  querySelectorAll sel doc r = querySelectorAll sel' doc' r.
Proof.
  intros Hdoc Hsel. unfold querySelectorAll.
  rewrite (alike_descendants_at doc doc') by done.
  apply list_filter_iff. intros q. by rewrite Hsel.
Qed.

Lemma alike_by_scope_class c doc doc' scope q :
  c ≠ "collapsed" → alike doc doc' →
  by_scope_class c doc scope q = by_scope_class c doc' scope q.
Proof.
  intros Hc Hdoc. destruct q as [|i up]; [done|]. simpl.
  by rewrite (alike_by_class c doc doc').
Qed.

Lemma alike_by_scope_div_class c doc doc' scope q :
  c ≠ "collapsed" → alike doc doc' →
  by_scope_div_class c doc scope q = by_scope_div_class c doc' scope q.
Proof.
  intros Hc Hdoc. destruct q as [|i [|j up]]; [done..|]. simpl.
  by rewrite (alike_by_class c doc doc'),
    (alike_matches (has_tag "div") doc doc') by (done || apply alike_has_tag).
Qed.

Lemma alike_querySelector (sel sel' : Ref → bool) doc doc' r :
  alike doc doc' → (∀ q, sel q = sel' q) →
  querySelector sel doc r = querySelector sel' doc' r.
Proof.
  intros Hdoc Hsel. unfold querySelector.
  by rewrite (alike_querySelectorAll sel sel' doc doc').
Qed.

Lemma alike_textContent_at doc doc' r :
  alike doc doc' →
  default "" (textContent <$> node_at doc r)
  = default "" (textContent <$> node_at doc' r).
Proof.
  intros Hdoc. destruct (alike_node_at doc doc' r Hdoc) as [n n' Hn|]; [|done].
  simpl. by apply alike_textContent.
Qed.

Lemma alike_path_parts rounds doc doc' current parts :
  alike doc doc' →
  path_parts rounds doc current parts = path_parts rounds doc' current parts.
Proof.
  intros Hdoc. revert current parts.
  induction rounds as [|rounds IH]; intros [cur|] parts; [done|done| |done].
  cbn [path_parts]. cbv zeta.
  rewrite (alike_querySelector (by_scope_div_class "property" doc cur)
             (by_scope_div_class "property" doc' cur) doc doc')
    by (try done; intros; by apply alike_by_scope_div_class).
  assert (Hnext :
    match match parentElement cur with
          | Some parent => closest ul_collapsible doc parent
          | None => None
          end with
    | Some ul => closest (has_tag "li") doc ul
    | None => None
    end
    = match match parentElement cur with
            | Some parent => closest ul_collapsible doc' parent
            | None => None
            end with
      | Some ul => closest (has_tag "li") doc' ul
      | None => None
      end).
  { destruct cur as [|i parent]; [done|]. cbn [parentElement].
    rewrite (alike_closest _ doc doc') by (done || apply alike_ul_collapsible).
    destruct (closest ul_collapsible doc' parent); [|done].
    by apply alike_closest; [apply alike_has_tag|]. }
  rewrite Hnext, IH. f_equal.
  assert (Hindex : ∀ i parent,
    (if by_class "array" doc parent
     then ("[" +:+ pretty match node_at doc parent with
                          | Some p => index_in_children p i
                          | None => 0
                          end +:+ "]") :: parts
     else parts)
    = (if by_class "array" doc' parent
       then ("[" +:+ pretty match node_at doc' parent with
                            | Some p => index_in_children p i
                            | None => 0
                            end +:+ "]") :: parts
       else parts)).
  { intros i parent. rewrite (alike_by_class "array" doc doc') by done.
    destruct (alike_node_at doc doc' parent Hdoc) as [n n' Hn|]; [|done].
    by rewrite (alike_index_in_children n n'). }
  destruct (querySelector _ doc' cur) as [span|].
  - rewrite (alike_textContent_at doc doc') by done.
    destruct (decide (_ ≠ "")); [done|]. destruct cur; [done|apply Hindex].
  - destruct (decide (_ ≠ "")); [done|]. destruct cur; [done|apply Hindex].
Qed.

Lemma alike_buildPathFromElement doc doc' collapsible :
  alike doc doc' →
  buildPathFromElement doc collapsible = buildPathFromElement doc' collapsible.
Proof.
  intros Hdoc. unfold buildPathFromElement.
  by rewrite (alike_path_parts _ doc doc'),
    (alike_closest _ doc doc') by (done || apply alike_has_tag).
Qed.

(** A gentle change leaves the tree alike. *)
Lemma alike_change n w f : gentle f → alike n (change n w f).
Proof.
  intros Hf. revert n. induction w as [|i w IH]; intros n; [apply Hf|].
  destruct n as [t a cs|s]; [|apply alike_refl]. simpl.
  constructor; [done|done|].
  apply Forall2_alter_r; [|intros c c' _ _ Hc; eapply alike_trans; eauto].
  apply Forall2_same_length_lookup_2; [done|].
  intros j c c' Hc Hc'. rewrite Hc in Hc'. injection Hc' as <-.
  apply alike_refl.
Qed.

Lemma alike_change_at doc r f : gentle f → alike doc (change_at doc r f).
Proof. apply alike_change. Qed.

Lemma same_classes_refl a : same_classes a a.
Proof. by intros c _. Qed.

(** The update steps of a class list write the attribute class alone. *)
Lemma update_classList_shape t a cs tokens :
  ∃ a', update_classList (Element t a cs) tokens = Element t a' cs ∧
        same_others a a'.
Proof.
  assert (Hset : same_others a (set_attribute a "class" (join " " tokens))).
  { intros k Hclass _. by rewrite getAttribute_set_ne. }
  unfold update_classList.
  destruct (getAttribute a "class"), tokens; eauto. by exists a.
Qed.

Lemma gentle_classList_remove : gentle (classList_remove "collapsed").
Proof.
  intros [t a cs|s]; [|split; [constructor|done]].
  destruct (update_classList_shape t a cs
              (filter (λ t, t ≠ "collapsed") (classList (Element t a cs))))
    as (a' & Ha' & Hothers).
  change (update_classList _ _)
    with (classList_remove "collapsed" (Element t a cs)) in Ha'.
  split; [|by rewrite Ha'].
  rewrite Ha'. constructor; [|done|apply Forall2_same_length_lookup_2; [done|];
    intros j c c' Hc Hc'; rewrite Hc in Hc'; injection Hc' as <-;
    apply alike_refl].
  intros c Hc.
  change (classList (Element "" a' [])) with (classList (Element t a' cs)).
  rewrite <- Ha', classList_remove_spec by done.
  rewrite list_elem_of_filter. change (classList (Element t a cs))
    with (classList (Element "" a [])). naive_solver.
Qed.

Lemma gentle_of_attrs f :
  (∀ s, f (Text s) = Text s) →
  (∀ t a cs, ∃ a', f (Element t a cs) = Element t a' cs ∧
                   same_classes a a' ∧ same_others a a') →
  gentle f.
Proof.
  intros Htext Helement [t a cs|s].
  - destruct (Helement t a cs) as (a' & -> & Ha & Ho). split; [|done].
    constructor; [done|done|]. apply Forall2_same_length_lookup_2; [done|].
    intros j c c' Hc Hc'. rewrite Hc in Hc'. injection Hc' as <-.
    apply alike_refl.
  - rewrite Htext. split; [constructor|done].
Qed.

Lemma gentle_classList_add : gentle (classList_add "collapsed").
Proof.
  apply gentle_of_attrs; [done|]. intros t a cs.
  destruct (update_classList_shape t a cs
              (if classList_contains "collapsed" (Element t a cs)
               then classList (Element t a cs)
               else classList (Element t a cs) ++ ["collapsed"]))
    as (a' & Ha' & Hothers).
  exists a'. split; [exact Ha'|]. split; [|exact Hothers]. intros c Hc.
  change (classList (Element "" a' [])) with (classList (Element t a' cs)).
  change (Element t a' cs) with (id (Element t a' cs)).
  unfold id. rewrite <- Ha'.
  change (update_classList _ _)
    with (classList_add "collapsed" (Element t a cs)).
  rewrite classList_add_spec by done.
  change (classList (Element "" a [])) with (classList (Element t a cs)).
  destruct (classList_contains "collapsed" (Element t a cs)); [done|].
  rewrite elem_of_app, list_elem_of_singleton. naive_solver.
Qed.

Lemma gentle_setAttribute v : gentle (setAttribute "aria-label" v).
Proof.
  apply gentle_of_attrs; [done|]. intros t a cs.
  exists (set_attribute a "aria-label" v). split; [done|]. split.
  - intros c _.
    change (classList (Element "" (set_attribute a "aria-label" v) []))
      with (classList (setAttribute "aria-label" v (Element "" a []))).
    by rewrite classList_setAttribute.
  - intros k _ Hlabel. by rewrite getAttribute_set_ne.
Qed.

(** ** Which elements are collapsed after a change *)

Lemma by_class_shell c doc doc' r :
  (λ m, (is_element m, attrs_of m)) <$> node_at doc r
  = (λ m, (is_element m, attrs_of m)) <$> node_at doc' r →
  by_class c doc r = by_class c doc' r.
Proof.
  unfold by_class, matches, classList_contains, classList, className.
  destruct (node_at doc r) as [n|], (node_at doc' r) as [n'|]; simpl;
    intros Heq; try done.
  injection Heq as -> ->. done.
Qed.

Lemma by_class_change_ne c doc p f r :
  (∀ m, childNodes_of (f m) = childNodes_of m) → r ≠ p →
  by_class c (change_at doc p f) r = by_class c doc r.
Proof. intros Hf Hr. by apply by_class_shell, node_at_change_ne. Qed.

Lemma gentle_childNodes f m : gentle f → childNodes_of (f m) = childNodes_of m.
Proof. intros Hf. apply Hf. Qed.

Lemma gentle_is_element f m : gentle f → is_element (f m) = is_element m.
Proof. intros Hf. symmetry. apply alike_is_element, Hf. Qed.

Lemma collapsed_at_remove doc p r :
  collapsed_at (change_at doc p (classList_remove "collapsed")) r
  = if decide (r = p) then false else collapsed_at doc r.
Proof.
  destruct (decide (r = p)) as [->|Hr].
  - unfold collapsed_at, by_class, matches. rewrite node_at_change_eq.
    destruct (node_at doc p) as [n|]; [|done]. simpl.
    destruct (is_element (classList_remove "collapsed" n)) eqn:Hn; [|done].
    rewrite (gentle_is_element _ _ gentle_classList_remove) in Hn.
    unfold classList_contains. rewrite classList_remove_spec by done.
    apply bool_decide_eq_false. rewrite list_elem_of_filter. naive_solver.
  - apply by_class_change_ne; [|done].
    intros m. apply gentle_childNodes, gentle_classList_remove.
Qed.

Lemma collapsed_at_add doc p r :
  collapsed_at (change_at doc p (classList_add "collapsed")) r
  = if decide (r = p) then matches (λ _, true) doc p else collapsed_at doc r.
Proof.
  destruct (decide (r = p)) as [->|Hr].
  - unfold collapsed_at, by_class, matches. rewrite node_at_change_eq.
    destruct (node_at doc p) as [n|]; [|done]. simpl.
    rewrite (gentle_is_element _ _ gentle_classList_add).
    destruct (is_element n) eqn:Hn; [|done]. simpl.
    unfold classList_contains at 1. rewrite classList_add_spec by done.
    apply bool_decide_eq_true.
    destruct (classList_contains "collapsed" n) eqn:Hin.
    + by apply bool_decide_eq_true in Hin.
    + rewrite elem_of_app, list_elem_of_singleton. by right.
  - apply by_class_change_ne; [|done].
    intros m. apply gentle_childNodes, gentle_classList_add.
Qed.

Lemma by_class_setAttribute c v doc q r :
  by_class c (change_at doc q (setAttribute "aria-label" v)) r
  = by_class c doc r.
Proof.
  destruct (decide (r = q)) as [->|Hr].
  - unfold by_class, matches. rewrite node_at_change_eq.
    destruct (node_at doc q) as [n|]; [|done]. simpl.
    rewrite (gentle_is_element _ _ (gentle_setAttribute v)).
    unfold classList_contains. by rewrite classList_setAttribute.
  - apply by_class_change_ne; [|done].
    intros m. by apply gentle_childNodes, gentle_setAttribute.
Qed.

(** ** References *)

Lemma closest_suffix sel doc r q : closest sel doc r = Some q → q `suffix_of` r.
Proof.
  induction r as [|i r IH]; simpl.
  - destruct (matches sel doc []); [by intros [= <-]|done].
  - destruct (matches sel doc (i :: r)); [by intros [= <-]|].
    intros Hq%IH. by apply suffix_cons_r.
Qed.

Lemma closest_matches sel doc r q :
  closest sel doc r = Some q → matches sel doc q = true.
Proof.
  induction r as [|i r IH]; simpl.
  - destruct (matches sel doc []) eqn:Hm; [by intros [= <-]|done].
  - destruct (matches sel doc (i :: r)) eqn:Hm; [by intros [= <-]|done].
Qed.

(** The elements below an element are referred to through it. *)
Lemma descendants_below n r q :
  q ∈ descendants n r → ∃ i up, q = i :: up ∧ r `suffix_of` up.
Proof.
  revert r q. induction n as [s|t a cs IH] using Node_induction;
    intros r q; [by intros ?%elem_of_nil|].
  simpl. generalize 0.
  induction IH as [|c cs Hc Hcs IHcs]; intros i; [by intros ?%elem_of_nil|].
  rewrite elem_of_app. intros [Hq|Hq]; [|by eapply IHcs].
  destruct (is_element c); [|by apply elem_of_nil in Hq].
  apply elem_of_cons in Hq as [->|Hq]; [by exists i, r|].
  apply Hc in Hq as (j & up & -> & Hup). exists j, up. split; [done|].
  etrans; [apply suffix_cons_r; reflexivity|done].
Qed.

Lemma querySelectorAll_below sel doc r q :
  q ∈ querySelectorAll sel doc r → ∃ i up, q = i :: up ∧ r `suffix_of` up.
Proof.
  unfold querySelectorAll, descendants_at.
  intros [_ Hq]%list_elem_of_filter.
  destruct (node_at doc r); [by eapply descendants_below|].
  by apply elem_of_nil in Hq.
Qed.

(** ** The loop of buildPathFromElement *)

Lemma path_parts_enough rounds doc current parts :
  (∀ cur, current = Some cur → (length cur < rounds)%nat) →
  is_Some (path_parts rounds doc current parts).
Proof.
  revert current parts.
  induction rounds as [|rounds IH]; intros [cur|] parts Hlen;
    [specialize (Hlen cur eq_refl); lia|by eexists| |by eexists].
  cbn [path_parts]. cbv zeta. apply IH. intros next Hnext.
  specialize (Hlen cur eq_refl).
  destruct cur as [|i parent]; [done|]. cbn [parentElement] in Hnext.
  destruct (closest ul_collapsible doc parent) as [ul|] eqn:Hul; [|done].
  apply closest_suffix, suffix_length in Hul.
  apply closest_suffix, suffix_length in Hnext. simpl in Hlen. lia.
Qed.

(** More rounds than the loop takes change nothing. *)
Lemma path_parts_more rounds rounds' doc current parts result :
  path_parts rounds doc current parts = Some result → (rounds ≤ rounds')%nat →
  path_parts rounds' doc current parts = Some result.
Proof.
  revert rounds' current parts.
  induction rounds as [|rounds IH]; intros rounds' [cur|] parts;
    [done|by destruct rounds'| |by destruct rounds'].
  intros Hresult Hle. destruct rounds' as [|rounds']; [lia|].
  cbn [path_parts] in *. cbv zeta in *. apply IH; [done|lia].
Qed.

(** ** Collecting and restoring *)

(** What [collectExpandedPaths] holds: the paths, not empty, of the
    collapsible elements below the container whose parent is not
    collapsed. *)
Lemma elem_of_collectExpandedPaths doc container s :
  s ∈ collectExpandedPaths doc (Some container) ↔
  s ≠ "" ∧
  ∃ q parent,
    q ∈ querySelectorAll (by_class "collapsible" doc) doc container ∧
    parentElement q = Some parent ∧ collapsed_at doc parent = false ∧
    buildPathFromElement doc q = s.
Proof.
  unfold collectExpandedPaths.
  generalize (querySelectorAll (by_class "collapsible" doc) doc container).
  intros l.
  assert (Hfold : ∀ acc : gset string,
    s ∈ foldl
          (λ (paths : gset string) collapsible,
             match parentElement collapsible with
             | Some parent =>
                 if negb (by_class "collapsed" doc parent)
                 then
                   let path := buildPathFromElement doc collapsible in
                   if decide (path ≠ "") then {[ path ]} ∪ paths else paths
                 else paths
             | None => paths
             end) acc l ↔
    s ∈ acc ∨
    s ≠ "" ∧
    ∃ q parent, q ∈ l ∧ parentElement q = Some parent ∧
                collapsed_at doc parent = false ∧
                buildPathFromElement doc q = s).
  { induction l as [|x l IH]; intros acc.
    - simpl. split; [by left|]. intros [?|(_ & q & ? & []%elem_of_nil & _)].
      done.
    - simpl. rewrite IH. clear IH. unfold collapsed_at.
      destruct (parentElement x) as [parent|] eqn:Hparent.
      + destruct (by_class "collapsed" doc parent) eqn:Hcollapsed; simpl.
        * split; [intros [?|(? & q & p & ? & ?)]|
                  intros [?|(? & q & p & [->|?]%elem_of_cons & Hp & Hc & ?)]];
            [by left|right; split; [done|]; exists q, p; set_solver|by left|
             congruence|right; split; [done|]; by exists q, p].
        * destruct (decide (buildPathFromElement doc x ≠ "")) as [Hne|Heq].
          -- rewrite elem_of_union, elem_of_singleton. split.
             ++ intros [[->|?]|(? & q & p & ? & ?)]; [|by left|].
                ** right. split; [done|]. exists x, parent. set_solver.
                ** right. split; [done|]. exists q, p. set_solver.
             ++ intros [?|(? & q & p & [->|?]%elem_of_cons & Hp & Hc & Hs)];
                  [by left; right|by left; left|].
                right. split; [done|]. by exists q, p.
          -- apply dec_stable in Heq. split.
             ++ intros [?|(? & q & p & ? & ?)]; [by left|].
                right. split; [done|]. exists q, p. set_solver.
             ++ intros [?|(? & q & p & [->|?]%elem_of_cons & Hp & Hc & Hs)];
                  [by left|congruence|].
                right. split; [done|]. by exists q, p.
      + split; [intros [?|(? & q & p & ? & ?)]|
                intros [?|(? & q & p & [->|?]%elem_of_cons & Hp & Hc & ?)]];
          [by left|right; split; [done|]; exists q, p; set_solver|by left|
           congruence|right; split; [done|]; by exists q, p]. }
  rewrite Hfold. set_solver.
Qed.

(** One round of the loop of [restoreExpandedPaths]. *)
Lemma restore_round_alike paths doc q :
  alike doc (restore_round paths doc q).
Proof.
  unfold restore_round. destruct (decide (_ ∈ paths)); [|apply alike_refl].
  assert (Hparent :
    alike doc match parentElement q with
              | Some parent =>
                  change_at doc parent (classList_remove "collapsed")
              | None => doc
              end).
  { destruct (parentElement q);
      [apply alike_change_at, gentle_classList_remove|apply alike_refl]. }
  destruct (match parentElement q with
            | Some parent => querySelector _ doc parent
            | None => None
            end); [|done].
  eapply alike_trans; [exact Hparent|].
  by apply alike_change_at, gentle_setAttribute.
Qed.

Lemma restore_round_collapsed_at paths doc q r :
  collapsed_at (restore_round paths doc q) r
  = collapsed_at doc r
    && negb (bool_decide (parentElement q = Some r)
             && bool_decide (buildPathFromElement doc q ∈ paths)).
Proof.
  unfold restore_round.
  destruct (decide (_ ∈ paths)) as [Hin|Hin].
  - rewrite (bool_decide_eq_true_2 _ Hin), andb_true_r.
    assert (Hparent :
      collapsed_at match parentElement q with
                   | Some parent =>
                       change_at doc parent (classList_remove "collapsed")
                   | None => doc
                   end r
      = collapsed_at doc r && negb (bool_decide (parentElement q = Some r))).
    { destruct (parentElement q) as [parent|].
      - rewrite collapsed_at_remove.
        destruct (decide (r = parent)) as [->|Hr].
        + by rewrite bool_decide_eq_true_2, andb_false_r.
        + rewrite bool_decide_eq_false_2 by congruence.
          by rewrite andb_true_r.
      - rewrite bool_decide_eq_false_2 by done. by rewrite andb_true_r. }
    destruct (match parentElement q with
              | Some parent => querySelector _ doc parent
              | None => None
              end); [|done].
    unfold collapsed_at in *. by rewrite by_class_setAttribute.
  - rewrite (bool_decide_eq_false_2 _ Hin), andb_false_r.
    by rewrite andb_true_r.
Qed.

Lemma restore_rounds paths doc0 l doc :
  alike doc0 doc →
  alike doc0 (foldl (restore_round paths) doc l) ∧
  ∀ r,
    collapsed_at (foldl (restore_round paths) doc l) r
    = collapsed_at doc r
      && negb (existsb
                 (λ q, bool_decide (parentElement q = Some r)
                       && bool_decide (buildPathFromElement doc0 q ∈ paths))
                 l).
Proof.
  revert doc. induction l as [|q l IH]; intros doc Hdoc.
  - split; [done|]. intros r. simpl. by rewrite andb_true_r.
  - simpl.
    assert (Hstep : alike doc0 (restore_round paths doc q))
      by (eapply alike_trans; [done|apply restore_round_alike]).
    destruct (IH _ Hstep) as [Halike Hcollapsed]. split; [done|].
    intros r. rewrite Hcollapsed, restore_round_collapsed_at.
    rewrite <- (alike_buildPathFromElement doc0 doc) by done.
    rewrite negb_orb. by rewrite andb_assoc.
Qed.

(** The tree after [restoreExpandedPaths] is alike the tree before. *)
Lemma restoreExpandedPaths_alike doc container paths :
  alike doc (restoreExpandedPaths doc container paths).
Proof.
  unfold restoreExpandedPaths. destruct container; [|apply alike_refl].
  destruct (decide (size paths = 0)); [apply alike_refl|].
  apply restore_rounds, alike_refl.
Qed.

(** An element is collapsed after [restoreExpandedPaths] when it was
    before and is not the parent of a collapsible element below the
    container with its path among [paths]. *)
Lemma restoreExpandedPaths_collapsed_at doc container paths r :
  collapsed_at (restoreExpandedPaths doc (Some container) paths) r = true ↔
  collapsed_at doc r = true ∧
  ∀ q, q ∈ querySelectorAll (by_class "collapsible" doc) doc container →
       parentElement q = Some r → buildPathFromElement doc q ∉ paths.
Proof.
  unfold restoreExpandedPaths.
  destruct (decide (size paths = 0)) as [Hempty|_].
  - apply size_empty_inv in Hempty. split; [|by intros []].
    intros Hr. split; [done|]. intros q _ _ Hin.
    apply Hempty in Hin. set_solver.
  - destruct (restore_rounds paths doc
                (querySelectorAll (by_class "collapsible" doc) doc container)
                doc (alike_refl doc)) as [_ ->].
    rewrite andb_true_iff, negb_true_iff.
    rewrite <- not_true_iff_false, existsb_exists.
    setoid_rewrite andb_true_iff. setoid_rewrite bool_decide_eq_true.
    setoid_rewrite <- list_elem_of_In. naive_solver.
Qed.

(** The parent of an element found below a container is an element. *)
Lemma node_at_parent_element doc i p n :
  node_at doc (i :: p) = Some n → matches (λ _, true) doc p = true.
Proof.
  rewrite node_at_cons. unfold matches.
  destruct (node_at doc p) as [[t a cs|s]|]; [done|by destruct i|done].
Qed.

Lemma matches_node_at sel doc r :
  matches sel doc r = true → ∃ n, node_at doc r = Some n.
Proof. unfold matches. destruct (node_at doc r); [by eexists|done]. Qed.

Lemma querySelectorAll_parent sel doc container q :
  q ∈ querySelectorAll (by_class sel doc) doc container →
  ∃ parent, parentElement q = Some parent ∧
            matches (λ _, true) doc parent = true.
Proof.
  intros Hq. pose proof Hq as (i & up & -> & _)%querySelectorAll_below.
  exists up. split; [done|].
  apply list_elem_of_filter in Hq as [(n & Hn)%matches_node_at _].
  by eapply node_at_parent_element.
Qed.

Lemma alike_collapsibles doc doc' container :
  alike doc doc' →
  querySelectorAll (by_class "collapsible" doc) doc container
  = querySelectorAll (by_class "collapsible" doc') doc' container.
Proof.
  intros Hdoc. apply alike_querySelectorAll; [done|].
  intros q. by apply alike_by_class.
Qed.

(** X1. What [collectExpandedPaths] returns: without a container nothing;
    with one, exactly the paths of the collapsible elements below it whose
    parent has not the class collapsed, the empty path left out. *)
Theorem collectExpandedPaths_holds doc :
  collectExpandedPaths doc None = ∅ ∧
  ∀ container s,
    s ∈ collectExpandedPaths doc (Some container) ↔
    s ≠ "" ∧
    ∃ q parent,
      q ∈ querySelectorAll (by_class "collapsible" doc) doc container ∧
      parentElement q = Some parent ∧ collapsed_at doc parent = false ∧
      buildPathFromElement doc q = s.
Proof. split; [done|]. intros. apply elem_of_collectExpandedPaths. Qed.

(** X2. [restoreExpandedPaths] changes no more than the attributes class
    and aria-label: the tree after it is alike the tree before, with the
    same elements and text and, in each element, the same attributes but for
    aria-label and for the class collapsed. So the same elements are
    collapsible below the container, each with the path it had, and no
    element is collapsed that was not. Without a container, or with no path,
    the tree is the same. *)
Theorem restoreExpandedPaths_keeps_tree doc container paths :
  let doc' := restoreExpandedPaths doc container paths in
  alike doc doc' ∧
  (∀ r k, k ≠ "class" → k ≠ "aria-label" →
          (λ n, getAttribute (attrs_of n) k) <$> node_at doc' r
          = (λ n, getAttribute (attrs_of n) k) <$> node_at doc r) ∧
  (∀ c, querySelectorAll (by_class "collapsible" doc') doc' c
        = querySelectorAll (by_class "collapsible" doc) doc c) ∧
  (∀ q, buildPathFromElement doc' q = buildPathFromElement doc q) ∧
  (∀ r, collapsed_at doc' r = true → collapsed_at doc r = true) ∧
  (container = None ∨ paths = ∅ → doc' = doc).
Proof.
  intros doc'. pose proof (restoreExpandedPaths_alike doc container paths)
    as Halike. fold doc' in Halike.
  split; [done|]. split; [|split; [|split; [|split]]].
  - intros r k Hclass Hlabel. symmetry. by apply alike_attributes.
  - intros c. symmetry. by apply alike_collapsibles.
  - intros q. symmetry. by apply alike_buildPathFromElement.
  - intros r. subst doc'. destruct container as [c|]; [|done].
    by intros [? _]%restoreExpandedPaths_collapsed_at.
  - subst doc'. intros [->| ->]; [done|].
    unfold restoreExpandedPaths. destruct container; [|done].
    by rewrite size_empty.
Qed.

(** X3. After [restoreExpandedPaths] an element is collapsed exactly when
    it was collapsed before and is not the parent of a collapsible element
    below the container whose path is among the paths given. *)
Theorem restoreExpandedPaths_expands doc container paths r :
  collapsed_at (restoreExpandedPaths doc (Some container) paths) r = true ↔
  collapsed_at doc r = true ∧
  ∀ q, q ∈ querySelectorAll (by_class "collapsible" doc) doc container →
       parentElement q = Some r → buildPathFromElement doc q ∉ paths.
Proof. apply restoreExpandedPaths_collapsed_at. Qed.

(** X4. What was expanded stays so through [restoreExpandedPaths], and what
    is asked for is expanded: collecting after it gives every path that
    would have been collected before, and every path given that is not empty
    and is the path of a collapsible element below the container. *)
Theorem collect_after_restore doc container paths s :
  s ∈ collectExpandedPaths doc (Some container) ∨
  (s ∈ paths ∧ s ≠ "" ∧
   ∃ q, q ∈ querySelectorAll (by_class "collapsible" doc) doc container ∧
        buildPathFromElement doc q = s) →
  s ∈ collectExpandedPaths
        (restoreExpandedPaths doc (Some container) paths) (Some container).
Proof.
  pose proof (restoreExpandedPaths_alike doc (Some container) paths) as Hdoc.
  rewrite !elem_of_collectExpandedPaths.
  rewrite <- (alike_collapsibles doc _ container Hdoc).
  intros [(Hs & q & parent & Hq & Hparent & Hcollapsed & Hpath)
         |(Hin & Hs & q & Hq & Hpath)].
  - split; [done|]. exists q, parent. repeat split; try done.
    + apply not_true_is_false.
      intros [? _]%restoreExpandedPaths_collapsed_at. congruence.
    + by rewrite <- (alike_buildPathFromElement doc).
  - split; [done|].
    destruct (querySelectorAll_parent _ _ _ _ Hq) as (parent & Hparent & _).
    exists q, parent. repeat split; try done.
    + apply not_true_is_false.
      intros [_ Hnot]%restoreExpandedPaths_collapsed_at.
      apply (Hnot q Hq Hparent). by rewrite Hpath.
    + by rewrite <- (alike_buildPathFromElement doc).
Qed.

(** X5. Restoring into a tree the paths collected from it leaves every
    element collapsed or not as it was, when no two collapsible elements
    below the container share a path that is not empty. *)
Theorem restore_of_collected doc container r :
  (∀ q1 q2,
     q1 ∈ querySelectorAll (by_class "collapsible" doc) doc container →
     q2 ∈ querySelectorAll (by_class "collapsible" doc) doc container →
     buildPathFromElement doc q1 = buildPathFromElement doc q2 →
     buildPathFromElement doc q1 ≠ "" → q1 = q2) →
  collapsed_at
    (restoreExpandedPaths doc (Some container)
       (collectExpandedPaths doc (Some container))) r
  = collapsed_at doc r.
Proof.
  intros Hinj. apply eq_true_iff_eq.
  rewrite restoreExpandedPaths_collapsed_at.
  split; [by intros []|]. intros Hr. split; [done|].
  intros q Hq Hparent
    (Hne & q2 & p2 & Hq2 & Hp2 & Hc2 & Hpath)%elem_of_collectExpandedPaths.
  assert (q2 = q) as -> by (apply Hinj; congruence). congruence.
Qed.

(** ** Expanding and collapsing all *)

Lemma label_collapser_alike v doc p : alike doc (label_collapser v doc p).1.
Proof.
  unfold label_collapser. destruct (querySelector _ doc p); [|apply alike_refl].
  by apply alike_change_at, gentle_setAttribute.
Qed.

Lemma label_collapser_collapsed_at v doc p r :
  collapsed_at (label_collapser v doc p).1 r = collapsed_at doc r.
Proof.
  unfold label_collapser. destruct (querySelector _ doc p); [|done].
  cbn [fst]. unfold collapsed_at. by rewrite by_class_setAttribute.
Qed.

Lemma label_collapser_returned v doc p :
  (label_collapser v doc p).2 = Returned () ↔
  is_Some (querySelector (by_class "collapser" doc) doc p).
Proof.
  unfold label_collapser.
  destruct (querySelector _ doc p); simpl; [by split; eauto|].
  split; [done|]. by intros [? ?].
Qed.

Lemma alike_collapsers doc doc' p :
  alike doc doc' →
  querySelector (by_class "collapser" doc) doc p
  = querySelector (by_class "collapser" doc') doc' p.
Proof.
  intros Hdoc. apply alike_querySelector; [done|].
  intros q. by apply alike_by_class.
Qed.

(** The rounds of [expandAll] and of [collapseAll]: [f] is what a round
    does to the class list of the parent, [v] the label it gives the
    collapser, [after p] whether the parent at [p] is collapsed after the
    round. The elements in [seen] are those the loop came to. *)
Lemma rounds_of_all f v (after : Ref → bool) doc0 l doc :
  gentle f →
  (∀ d p r, alike doc0 d →
            collapsed_at (change_at d p f) r
            = if decide (r = p) then after p else collapsed_at d r) →
  alike doc0 doc →
  let result :=
    for_each_element l
      (λ doc q,
         match parentElement q with
         | Some parentNode =>
             label_collapser v (change_at doc parentNode f) parentNode
         | None => (doc, Thrown "TypeError")
         end) doc in
  alike doc0 result.1 ∧
  (result.2 = Returned () ↔
   ∀ q, q ∈ l →
        ∃ p, parentElement q = Some p ∧
             is_Some (querySelector (by_class "collapser" doc0) doc0 p)) ∧
  ∃ seen,
    seen `prefix_of` l ∧ (result.2 = Returned () → seen = l) ∧
    ∀ r, collapsed_at result.1 r
         = if existsb (λ q, bool_decide (parentElement q = Some r)) seen
           then after r else collapsed_at doc r.
Proof.
  intros Hf Hafter. revert doc. induction l as [|q l IH]; intros doc Hdoc.
  - simpl. split; [done|]. split; [by split; [intros _ ? ?%elem_of_nil|]|].
    exists []. by repeat split.
  - cbn [for_each_element].
    destruct (parentElement q) as [p|] eqn:Hp.
    + pose proof (alike_change_at doc p f Hf) as Hchange.
      pose proof (label_collapser_alike v (change_at doc p f) p) as Hlabel.
      pose proof (label_collapser_returned v (change_at doc p f) p) as Hret.
      pose proof (label_collapser_collapsed_at v (change_at doc p f) p) as Hc.
      assert (Hchanged : alike doc0 (change_at doc p f))
        by (eapply alike_trans; [exact Hdoc|exact Hchange]).
      assert (Hnext : alike doc0 (label_collapser v (change_at doc p f) p).1)
        by (eapply alike_trans; [exact Hchanged|exact Hlabel]).
      rewrite <- (alike_collapsers doc0 (change_at doc p f) p) in Hret
        by exact Hchanged.
      destruct (label_collapser v (change_at doc p f) p) as [doc1 [[]|e]];
        cbn [fst snd] in *.
      * destruct (IH doc1 Hnext) as (Halike & Hreturned & seen & Hpre & Hall
                                     & Hseen).
        split; [done|]. split.
        { rewrite Hreturned. split.
          - intros Hl q' [->|?]%elem_of_cons; [|by apply Hl].
            exists p. split; [done|]. by apply Hret.
          - intros Hl q' Hq'. apply Hl. by right. }
        exists (q :: seen). split; [by apply prefix_cons|].
        split; [by intros ->%Hall|].
        intros r. rewrite Hseen, Hc, Hafter by done. simpl.
        destruct (decide (r = p)) as [->|Hr].
        -- rewrite bool_decide_eq_true_2 by done. simpl.
           by destruct (existsb _ seen).
        -- rewrite bool_decide_eq_false_2 by congruence. done.
      * split; [done|]. split.
        { split; [done|]. intros Hl.
          destruct (Hl q) as (p' & Hp' & Hsome); [by left|].
          assert (p' = p) as -> by congruence.
          apply Hret in Hsome. done. }
        exists [q]. split; [by apply prefix_cons, prefix_nil|].
        split; [done|].
        intros r. rewrite Hc, Hafter by done. simpl.
        destruct (decide (r = p)) as [->|Hr].
        -- by rewrite bool_decide_eq_true_2.
        -- by rewrite bool_decide_eq_false_2 by congruence.
    + split; [done|]. split.
      { split; [done|]. intros Hl.
        destruct (Hl q) as (p' & Hp' & _); [by left|]. congruence. }
      exists []. split; [apply prefix_nil|]. by split.
Qed.

Lemma existsb_parent_iff (l : list Ref) r :
  existsb (λ q, bool_decide (parentElement q = Some r)) l = true ↔
  ∃ q, q ∈ l ∧ parentElement q = Some r.
Proof.
  rewrite existsb_exists. setoid_rewrite bool_decide_eq_true.
  by setoid_rewrite <- list_elem_of_In.
Qed.

Lemma steady_any : steady (λ _, true).
Proof. done. Qed.

Lemma expandAll_rounds doc node :
  alike doc (expandAll doc (Some node)).1 ∧
  ((expandAll doc (Some node)).2 = Returned () ↔
   ∀ q, q ∈ querySelectorAll (by_class "collapsible" doc) doc node →
        ∃ p, parentElement q = Some p ∧
             is_Some (querySelector (by_class "collapser" doc) doc p)) ∧
  ∃ seen,
    seen `prefix_of` querySelectorAll (by_class "collapsible" doc) doc node ∧
    ((expandAll doc (Some node)).2 = Returned () →
     seen = querySelectorAll (by_class "collapsible" doc) doc node) ∧
    ∀ r, collapsed_at (expandAll doc (Some node)).1 r
         = if existsb (λ q, bool_decide (parentElement q = Some r)) seen
           then false else collapsed_at doc r.
Proof.
  apply (rounds_of_all (classList_remove "collapsed") "collapse"
           (λ _, false) doc _ doc gentle_classList_remove);
    [|apply alike_refl].
  intros d p r _. apply collapsed_at_remove.
Qed.

Lemma collapseAll_rounds doc node :
  alike doc (collapseAll doc (Some node)).1 ∧
  ((collapseAll doc (Some node)).2 = Returned () ↔
   ∀ q, q ∈ drop 1 (querySelectorAll (by_class "collapsible" doc) doc node) →
        ∃ p, parentElement q = Some p ∧
             is_Some (querySelector (by_class "collapser" doc) doc p)) ∧
  ∃ seen,
    seen `prefix_of`
      drop 1 (querySelectorAll (by_class "collapsible" doc) doc node) ∧
    ((collapseAll doc (Some node)).2 = Returned () →
     seen = drop 1 (querySelectorAll (by_class "collapsible" doc) doc node)) ∧
    ∀ r, collapsed_at (collapseAll doc (Some node)).1 r
         = if existsb (λ q, bool_decide (parentElement q = Some r)) seen
           then matches (λ _, true) doc r else collapsed_at doc r.
Proof.
  apply (rounds_of_all (classList_add "collapsed") "expand"
           (matches (λ _, true) doc) doc _ doc gentle_classList_add);
    [|apply alike_refl].
  intros d p r Hd. rewrite collapsed_at_add.
  by rewrite (alike_matches _ doc d) by (done || apply steady_any).
Qed.

(** X6. [expandAll] returns exactly when there is a node and the parent of
    every collapsible element below it holds a collapser; it raises
    otherwise. Whether it returns or raises, the tree stays alike and no
    element is collapsed that was not. *)
Theorem expandAll_returns doc node :
  alike doc (expandAll doc node).1 ∧
  (∀ r, collapsed_at (expandAll doc node).1 r = true →
        collapsed_at doc r = true) ∧
  ((expandAll doc node).2 = Returned () ↔
   ∃ n, node = Some n ∧
        ∀ q, q ∈ querySelectorAll (by_class "collapsible" doc) doc n →
             ∃ p, parentElement q = Some p ∧
                  is_Some (querySelector (by_class "collapser" doc) doc p)).
Proof.
  destruct node as [n|].
  - destruct (expandAll_rounds doc n) as (Halike & Hret & seen & _ & _ & Hc).
    split; [done|]. split.
    + intros r. rewrite Hc. by destruct (existsb _ seen).
    + rewrite Hret. split; [by exists n|]. by intros (? & [= <-] & ?).
  - split; [apply alike_refl|]. split; [done|].
    split; [done|]. by intros (? & ? & _).
Qed.

(** X7. When [expandAll] returns, the elements that are collapsed are those
    that were and are not the parent of a collapsible element below the
    node, and collecting gives the path of every collapsible element below
    the node, the empty path left out. *)
Theorem expandAll_expands doc node :
  (expandAll doc (Some node)).2 = Returned () →
  (∀ r, collapsed_at (expandAll doc (Some node)).1 r = true ↔
        collapsed_at doc r = true ∧
        ∀ q, q ∈ querySelectorAll (by_class "collapsible" doc) doc node →
             parentElement q ≠ Some r) ∧
  ∀ s, s ∈ collectExpandedPaths (expandAll doc (Some node)).1 (Some node) ↔
       s ≠ "" ∧
       ∃ q, q ∈ querySelectorAll (by_class "collapsible" doc) doc node ∧
            buildPathFromElement doc q = s.
Proof.
  intros Hreturned.
  destruct (expandAll_rounds doc node) as (Halike & _ & seen & _ & Hall & Hc).
  rewrite (Hall Hreturned) in Hc. clear Hall seen.
  assert (Hcollapsed : ∀ r,
    collapsed_at (expandAll doc (Some node)).1 r = true ↔
    collapsed_at doc r = true ∧
    ∀ q, q ∈ querySelectorAll (by_class "collapsible" doc) doc node →
         parentElement q ≠ Some r).
  { intros r. rewrite Hc.
    destruct (existsb _ _) eqn:Hhit.
    - apply existsb_parent_iff in Hhit as (q & Hq & Hp).
      split; [done|]. intros [_ Hnone]. by destruct (Hnone q Hq).
    - split; [|by intros []]. intros Hr. split; [done|].
      intros q Hq Hp. apply not_true_iff_false in Hhit. apply Hhit.
      apply existsb_parent_iff. by exists q. }
  split; [done|]. intros s.
  rewrite elem_of_collectExpandedPaths.
  rewrite <- (alike_collapsibles doc _ node Halike).
  split.
  - intros (Hs & q & p & Hq & _ & _ & Hpath). split; [done|]. exists q.
    split; [done|]. by rewrite (alike_buildPathFromElement doc _ q Halike).
  - intros (Hs & q & Hq & Hpath). split; [done|].
    destruct (querySelectorAll_parent _ _ _ _ Hq) as (p & Hp & _).
    exists q, p. repeat split; try done.
    + apply not_true_is_false. intros [_ Hnone]%Hcollapsed.
      by destruct (Hnone q Hq).
    + by rewrite <- (alike_buildPathFromElement doc _ q Halike).
Qed.

(** X8. [collapseAll] leaves the first collapsible element below the node
    out: when it returns, the elements that are collapsed are those that
    were and the parents of the collapsible elements after the first, and
    collecting gives at most the path of the first. *)
Theorem collapseAll_collapses doc node :
  (collapseAll doc (Some node)).2 = Returned () →
  (∀ r, collapsed_at (collapseAll doc (Some node)).1 r = true ↔
        collapsed_at doc r = true ∨
        ∃ q, q ∈ drop 1 (querySelectorAll (by_class "collapsible" doc)
                           doc node) ∧
             parentElement q = Some r) ∧
  ∀ s, s ∈ collectExpandedPaths (collapseAll doc (Some node)).1 (Some node) →
       ∃ first,
         head (querySelectorAll (by_class "collapsible" doc) doc node)
         = Some first ∧
         buildPathFromElement doc first = s.
Proof.
  intros Hreturned.
  destruct (collapseAll_rounds doc node)
    as (Halike & _ & seen & _ & Hall & Hc).
  rewrite (Hall Hreturned) in Hc. clear Hall seen.
  assert (Hcollapsed : ∀ r,
    collapsed_at (collapseAll doc (Some node)).1 r = true ↔
    collapsed_at doc r = true ∨
    ∃ q, q ∈ drop 1 (querySelectorAll (by_class "collapsible" doc)
                       doc node) ∧
         parentElement q = Some r).
  { intros r. rewrite Hc.
    destruct (existsb _ _) eqn:Hhit.
    - apply existsb_parent_iff in Hhit as (q & Hq & Hp).
      split; [intros _; right; by exists q|]. intros _.
      assert (Hq' : q ∈ querySelectorAll (by_class "collapsible" doc)
                          doc node)
        by (eapply subseteq_drop, Hq).
      destruct (querySelectorAll_parent _ _ _ _ Hq') as (p & Hp' & Hel).
      congruence.
    - split; [by left|]. intros [?|(q & Hq & Hp)]; [done|].
      apply not_true_iff_false in Hhit. destruct Hhit.
      apply existsb_parent_iff. by exists q. }
  split; [done|]. intros s.
  rewrite elem_of_collectExpandedPaths.
  rewrite <- (alike_collapsibles doc _ node Halike).
  intros (Hs & q & p & Hq & Hp & Hstate & Hpath).
  rewrite <- (alike_buildPathFromElement doc _ q Halike) in Hpath.
  destruct (querySelectorAll (by_class "collapsible" doc) doc node)
    as [|first rest]; [by apply elem_of_nil in Hq|].
  exists first. split; [done|].
  apply elem_of_cons in Hq as [->|Hq]; [done|].
  apply not_true_iff_false in Hstate. destruct Hstate.
  apply Hcollapsed. right. by exists q.
Qed.

(** ** Collapsing one element *)

Lemma querySelector_elem_of sel doc r q :
  querySelector sel doc r = Some q → q ∈ querySelectorAll sel doc r.
Proof.
  unfold querySelector. destruct (querySelectorAll sel doc r); [done|].
  intros [= ->]. by left.
Qed.

(** What [collapseElement] does on a collapser when it returns. *)
Lemma collapseElement_returned doc target doc' :
  className <$> node_at doc target = Some "collapser" →
  collapseElement doc target = (doc', Returned ()) →
  ∃ parent collapsed holder,
    parentElement target = Some parent ∧
    querySelector (by_class "collapsible" doc) doc parent = Some collapsed ∧
    parentElement collapsed = Some holder ∧
    matches (λ _, true) doc holder = true ∧
    doc'
    = change_at
        (change_at doc holder
           (if collapsed_at doc holder then classList_remove "collapsed"
            else classList_add "collapsed"))
        target
        (setAttribute "aria-label"
           (if collapsed_at doc holder then "collapse" else "expand")).
Proof.
  intros Hclass. unfold collapseElement. rewrite decide_True by done.
  destruct (parentElement target) as [parent|]; [|done].
  destruct (querySelector _ doc parent) as [collapsed|] eqn:Hq; [|done].
  destruct (querySelectorAll_parent _ _ _ _ (querySelector_elem_of _ _ _ _ Hq))
    as (holder & Hholder & Helement).
  rewrite Hholder. fold (collapsed_at doc holder).
  intros Hdoc'. exists parent, collapsed, holder. repeat split; try done.
  destruct (collapsed_at doc holder); by injection Hdoc' as <-.
Qed.

Lemma collapsed_at_toggle doc holder r :
  matches (λ _, true) doc holder = true →
  collapsed_at
    (change_at doc holder
       (if collapsed_at doc holder then classList_remove "collapsed"
        else classList_add "collapsed")) r
  = if decide (r = holder) then negb (collapsed_at doc holder)
    else collapsed_at doc r.
Proof.
  intros Helement. destruct (collapsed_at doc holder) eqn:Hstate.
  - rewrite collapsed_at_remove. by destruct (decide (r = holder)).
  - rewrite collapsed_at_add. destruct (decide (r = holder)); [|done].
    by rewrite Helement.
Qed.

Lemma gentle_toggle (b : bool) :
  gentle (if b then classList_remove "collapsed"
          else classList_add "collapsed").
Proof. destruct b; [apply gentle_classList_remove|apply gentle_classList_add]. Qed.

(** X9. [collapseElement] changes nothing unless the class attribute of the
    target is collapser, the very string. On such a target, when it returns,
    it switches the parent of the first collapsible element below the parent
    of the target between collapsed and not, leaves every other element as
    it was, and labels the target by the new state: expand when collapsed,
    collapse when not. *)
Theorem collapseElement_toggles doc target :
  (className <$> node_at doc target ≠ Some "collapser" →
   collapseElement doc target = (doc, Returned ())) ∧
  ∀ doc',
    className <$> node_at doc target = Some "collapser" →
    collapseElement doc target = (doc', Returned ()) →
    ∃ parent collapsed holder,
      parentElement target = Some parent ∧
      querySelector (by_class "collapsible" doc) doc parent = Some collapsed ∧
      parentElement collapsed = Some holder ∧
      alike doc doc' ∧
      (∀ r, collapsed_at doc' r
            = if decide (r = holder) then negb (collapsed_at doc holder)
              else collapsed_at doc r) ∧
      (λ n, getAttribute (attrs_of n) "aria-label") <$> node_at doc' target
      = Some (Some (if collapsed_at doc' holder then "expand"
                    else "collapse")).
Proof.
  split.
  { intros Hclass. unfold collapseElement. by rewrite decide_False. }
  intros doc' Hclass Hrun.
  destruct (collapseElement_returned doc target doc' Hclass Hrun)
    as (parent & collapsed & holder & Hparent & Hq & Hholder & Helement
        & ->).
  exists parent, collapsed, holder. repeat split; try done.
  - eapply alike_trans; [apply alike_change_at, gentle_toggle|].
    by apply alike_change_at, gentle_setAttribute.
  - intros r. unfold collapsed_at at 1. rewrite by_class_setAttribute.
    by apply collapsed_at_toggle.
  - assert (Hstate :
      collapsed_at
        (change_at
           (change_at doc holder
              (if collapsed_at doc holder then classList_remove "collapsed"
               else classList_add "collapsed"))
           target
           (setAttribute "aria-label"
              (if collapsed_at doc holder then "collapse" else "expand")))
        holder
      = negb (collapsed_at doc holder)).
    { unfold collapsed_at at 1. rewrite by_class_setAttribute.
      fold (collapsed_at
              (change_at doc holder
                 (if collapsed_at doc holder
                  then classList_remove "collapsed"
                  else classList_add "collapsed")) holder).
      by rewrite collapsed_at_toggle, decide_True. }
    rewrite Hstate, node_at_change_eq.
    pose proof (alike_node_at doc
                  (change_at doc holder
                     (if collapsed_at doc holder
                      then classList_remove "collapsed"
                      else classList_add "collapsed"))
                  target (alike_change_at _ _ _ (gentle_toggle _))) as Hn.
    destruct Hn as [n n' Hn|]; [|done].
    destruct n as [t a cs|s]; [|done].
    inversion Hn; subst.
    change (Some (getAttribute
                    (set_attribute a'
                       "aria-label"
                       (if collapsed_at doc holder then "collapse"
                        else "expand")) "aria-label")
            = Some (Some (if negb (collapsed_at doc holder) then "expand"
                          else "collapse"))).
    rewrite getAttribute_set_eq. by destruct (collapsed_at doc holder).
Qed.

(** X10. Two clicks on a collapser leave every element collapsed or not as
    it was, when the element the clicks switch is not the collapser itself:
    the second call returns as the first did and switches back. *)
Theorem collapseElement_twice doc target doc1 :
  className <$> node_at doc target = Some "collapser" →
  collapseElement doc target = (doc1, Returned ()) →
  (∀ parent collapsed,
     parentElement target = Some parent →
     querySelector (by_class "collapsible" doc) doc parent = Some collapsed →
     parentElement collapsed ≠ Some target) →
  ∃ doc2,
    collapseElement doc1 target = (doc2, Returned ()) ∧
    ∀ r, collapsed_at doc2 r = collapsed_at doc r.
Proof.
  intros Hclass Hrun Hother.
  destruct (collapseElement_returned doc target doc1 Hclass Hrun)
    as (parent & collapsed & holder & Hparent & Hq & Hholder & Helement
        & Hdoc1).
  assert (Hne : target ≠ holder)
    by (intros ->; by apply (Hother parent collapsed)).
  assert (Halike : alike doc doc1).
  { rewrite Hdoc1. eapply alike_trans; [apply alike_change_at, gentle_toggle|].
    by apply alike_change_at, gentle_setAttribute. }
  assert (Hstate : ∀ r, collapsed_at doc1 r
                        = if decide (r = holder)
                          then negb (collapsed_at doc holder)
                          else collapsed_at doc r).
  { intros r. rewrite Hdoc1. unfold collapsed_at at 1.
    rewrite by_class_setAttribute. by apply collapsed_at_toggle. }
  assert (Hclass1 : className <$> node_at doc1 target = Some "collapser").
  { rewrite Hdoc1, node_at_change_eq.
    pose proof (node_at_change_ne doc holder target
                  (if collapsed_at doc holder
                   then classList_remove "collapsed"
                   else classList_add "collapsed")
                  (λ m, gentle_childNodes _ m (gentle_toggle _)) Hne) as Hn.
    destruct (node_at (change_at doc holder _) target) as [n1|],
      (node_at doc target) as [n|]; try done.
    simpl in *. injection Hn as Hel Hattrs. injection Hclass as Hclass.
    f_equal. destruct n1 as [t1 a1 cs1|?], n as [t a cs|?]; try done.
    unfold className in *. cbn [attrs_of setAttribute] in *. subst a1.
    by rewrite getAttribute_set_ne. }
  assert (Hq1 : querySelector (by_class "collapsible" doc1) doc1 parent
                = Some collapsed).
  { rewrite <- Hq. symmetry. apply alike_querySelector; [done|].
    intros q. by apply alike_by_class. }
  assert (Helement1 : matches (λ _, true) doc1 holder = true)
    by (by rewrite <- (alike_matches _ doc doc1) by (done || apply steady_any)).
  unfold collapseElement. rewrite decide_True by done.
  rewrite Hparent, Hq1, Hholder. fold (collapsed_at doc1 holder).
  exists (change_at
            (change_at doc1 holder
               (if collapsed_at doc1 holder then classList_remove "collapsed"
                else classList_add "collapsed"))
            target
            (setAttribute "aria-label"
               (if collapsed_at doc1 holder then "collapse" else "expand"))).
  split; [by destruct (collapsed_at doc1 holder)|].
  intros r. unfold collapsed_at at 1. rewrite by_class_setAttribute.
  fold (collapsed_at
          (change_at doc1 holder
             (if collapsed_at doc1 holder then classList_remove "collapsed"
              else classList_add "collapsed")) r).
  rewrite collapsed_at_toggle by done. rewrite !Hstate.
  destruct (decide (r = holder)) as [->|]; [|done].
  rewrite decide_True by done. by rewrite negb_involutive.
Qed.

(** ** The path of an element *)

(** X11. The loop of [buildPathFromElement] ends for every element of every
    tree, within one round for each node from the element up to the root;
    more rounds give the same parts. *)
Theorem buildPathFromElement_loop_ends doc collapsible :
  ∃ parts,
    path_parts (S (length collapsible)) doc
      (closest (has_tag "li") doc collapsible) [] = Some parts ∧
    buildPathFromElement doc collapsible = join "." parts ∧
    ∀ rounds,
      (S (length collapsible) ≤ rounds)%nat →
      path_parts rounds doc (closest (has_tag "li") doc collapsible) []
      = Some parts.
Proof.
  destruct (path_parts_enough (S (length collapsible)) doc
              (closest (has_tag "li") doc collapsible) []) as [parts Hparts].
  { intros cur Hcur%closest_suffix%suffix_length. lia. }
  exists parts. split; [done|]. split.
  - unfold buildPathFromElement. by rewrite Hparts.
  - intros rounds Hle. by eapply path_parts_more.
Qed.

(** ** The folding buttons *)

Lemma is_object_nesting v : is_object v = true ↔ (1 ≤ nesting v)%nat.
Proof.
  destruct v; simpl; split; intros; try done; try lia; exfalso; lia.
Qed.

Lemma existsb_is_object_nesting (l : list Json) :
  existsb is_object l = true ↔ (1 ≤ foldr Nat.max 0 (nesting <$> l))%nat.
Proof.
  induction l as [|v l IH]; [simpl; split; [done|lia]|].
  rewrite fmap_cons. cbn [existsb foldr].
  rewrite orb_true_iff, IH, is_object_nesting. lia.
Qed.

Lemma nesting_members (ps : list (string * Json)) :
  (fix over (ps : list (string * Json)) : list nat :=
     match ps with
     | [] => []
     | (_, x) :: r => nesting x :: over r
     end) ps
  = nesting <$> ps.*2.
Proof. induction ps as [|[k x] ps IH]; [done|]. simpl. by rewrite IH. Qed.

Lemma nesting_items (xs : list (option Json)) :
  (fix over (xs : list (option Json)) : list nat :=
     match xs with
     | [] => []
     | Some x :: r => nesting x :: over r
     | None :: r => over r
     end) xs
  = nesting <$> omap id xs.
Proof. induction xs as [|[x|] xs IH]; [done| |done]. simpl. by rewrite IH. Qed.

Lemma foldr_max_app (l k : list nat) :
  foldr Nat.max 0 (l ++ k) = Nat.max (foldr Nat.max 0 l) (foldr Nat.max 0 k).
Proof.
  induction l as [|x l IH]; [done|]. cbn [app foldr]. rewrite IH. lia.
Qed.

Lemma characters_nesting s :
  foldr Nat.max 0 (nesting <$> characters s) = 0.
Proof.
  induction s as [|c s IH]; [done|].
  cbn [characters]. rewrite fmap_cons. cbn [foldr nesting]. by rewrite IH.
Qed.

(** X12. The folding buttons are asked for exactly when the data holds an
    object or an array inside an object or an array; otherwise the test
    gives a value that counts as false. *)
Theorem showFoldingButtons_nesting data :
  (showFoldingButtons data = JBool true ↔ (2 ≤ nesting data)%nat) ∧
  (showFoldingButtons data = JBool true
   ∨ json_truthy (showFoldingButtons data) = false).
Proof.
  assert (Hvalues :
    json_truthy data = true →
    existsb is_object (Object_values data) = true ↔ (2 ≤ nesting data)%nat).
  { intros _. rewrite existsb_is_object_nesting.
    destruct data as [| |b|n|s|xs own|ps]; cbn [Object_values nesting].
    - cbn. lia.
    - cbn. lia.
    - cbn. lia.
    - cbn. lia.
    - rewrite characters_nesting. lia.
    - rewrite nesting_items, nesting_members, fmap_app, foldr_max_app. lia.
    - rewrite nesting_members. lia. }
  unfold showFoldingButtons. destruct (json_truthy data) eqn:Htruthy.
  - specialize (Hvalues eq_refl).
    destruct (existsb is_object (Object_values data)).
    + split; [|by left]. split; [intros _; by apply Hvalues|done].
    + split; [|by right]. split; [done|].
      intros Hn%Hvalues. done.
  - split; [|by right]. split.
    + intros ->. done.
    + destruct data as [| |b|n|s|xs own|ps]; simpl in *; (done || lia).
Qed.

(** * More on the media type *)

Section MoreOnExamples.
Context (svc : Collaborators).

(** Every round of a loop that returns has returned. *)
Lemma for_of_rounds_returned {A S} (l : list A) (body : S → A → Run S)
    (acc result : S) :
  outcome (for_of l body acc) = Returned result →
  ∀ x, x ∈ l → ∃ acc0 acc1, outcome (body acc0 x) = Returned acc1.
Proof.
  revert acc. induction l as [|y l IH]; intros acc Hrun x Hx;
    [by apply elem_of_nil in Hx|].
  simpl in Hrun. destruct (body acc y) as [t [acc'|e]] eqn:Hround; [|done].
  rewrite bind_returned in Hrun. cbn [outcome snd] in Hrun.
  apply elem_of_cons in Hx as [->|Hx].
  - exists acc, acc'. by rewrite Hround.
  - by eapply IH.
Qed.

(** When the fan-out returns, the sampler and the write of the root
    discriminator have returned for every variant. *)
Lemma fan_out_returned this root parser variants result :
  schema this = Some root → _parser this = Some parser →
  oneOf root = Some variants → variants ≠ [] →
  outcome (generateExamples svc this) = Returned result →
  ∃ sample_of written : SchemaModel → Json,
    (∀ v, v ∈ variants →
          sampled svc this parser v = Returned (sample_of v)) ∧
    (∀ v, v ∈ variants →
          set_root_discriminator svc root v (sample_of v)
          = Returned (written v)).
Proof.
  intros Hschema Hparser Hone Hne.
  unfold generateExamples. rewrite Hschema, Hparser.
  rewrite (has_variants_true root variants) by done. rewrite Hone.
  cbn [default].
  match goal with
  | |- context [bind ?loop _] =>
      destruct loop as [t [m|e]] eqn:Hloop; [|done]
  end.
  intros _. apply (f_equal outcome) in Hloop. cbn [outcome snd] in Hloop.
  pose proof (for_of_rounds_returned _ _ _ _ Hloop) as Hrounds.
  exists (λ v, match sampled svc this parser v with
               | Returned sample => sample
               | Thrown _ => JUndefined
               end),
         (λ v, match sampled svc this parser v with
               | Returned sample =>
                   match set_root_discriminator svc root v sample with
                   | Returned written => written
                   | Thrown _ => JUndefined
                   end
               | Thrown _ => JUndefined
               end).
  split; intros v Hv; destruct (Hrounds v Hv) as (acc0 & acc1 & Hround);
    rewrite fan_out_round in Hround;
    destruct (sampled svc this parser v) as [sample|]; try done;
    destruct (set_root_discriminator svc root v sample); done.
Qed.

(** What a read in the state Generating returns, when it returns. *)
Lemma generating_returned this root parser result :
  Generating this root parser →
  outcome (examples svc this) = Returned result →
  ∃ m,
    result = Some m ∧
    dom m
    = (if has_variants root
       then list_to_set (title <$> default [] (oneOf root)) ∖ {[ "__proto__" ]}
       else {[ "default" ]}) ∧
    ∀ k e, m !! k = Some e →
           mime e = name this ∧ encoding e = _encoding this.
Proof.
  intros Hgen. pose proof Hgen as (_ & _ & Hschema & Hparser).
  rewrite (examples_generating svc this root parser Hgen). cbn [outcome snd].
  destruct (has_variants root) eqn:Hvariants.
  - unfold has_variants in Hvariants.
    destruct (oneOf root) as [[|v variants]|] eqn:Hone; [done| |done].
    intros Hrun.
    destruct (fan_out_returned this root parser (v :: variants) result)
      as (sample_of & written & Hsample & Hwrite); [done..|].
    rewrite (generateExamples_fan_out svc this root parser (v :: variants)
               sample_of written) in Hrun by done.
    exists (fill title (λ w, variant_artifact svc this parser w (written w))
              ∅ (v :: variants)).
    split; [by injection Hrun|]. split.
    + rewrite dom_fill, dom_empty_L. cbn [default]. set_solver.
    + intros k e [(w & _ & _ & _ & ->)|Hk]%lookup_fill_Some; [done|].
      by rewrite lookup_empty in Hk.
  - rewrite (generateExamples_single svc this root parser) by done.
    destruct (sampled svc this parser root) as [sample|e]; [|done].
    cbn. intros [= <-]. eexists. split; [done|]. split.
    + by rewrite dom_singleton_L.
    + intros k e. rewrite lookup_singleton_Some. by intros [<- <-].
Qed.

(** X13. A read of a constructed media type returns undefined exactly when
    nothing static was supplied and either the name is not JSON-like or the
    schema of the description is undefined or another value that counts as
    false: with a schema and generation enabled it returns a map or
    raises. *)
Theorem examples_undefined_iff parser name isRequestType info options :
  outcome
    (examples svc
       (new_MediaTypeModel svc parser name isRequestType info options))
  = Returned None ↔
  info_examples info = None ∧ info_example info = None ∧
  (isJsonLike svc name = false
   ∨ json_truthy (default JUndefined (info_schema info)) = false).
Proof.
  destruct (info_examples info) as [supplied|] eqn:Hexamples.
  { unfold examples. cbn. rewrite Hexamples. cbn. naive_solver. }
  destruct (info_example info) as [example|] eqn:Hexample.
  { unfold examples. cbn. rewrite Hexamples, Hexample. cbn. naive_solver. }
  destruct (isJsonLike svc name) eqn:Hname.
  - destruct (info_schema info) as [raw|] eqn:Hraw;
      [destruct (json_truthy raw) eqn:Htruthy|].
    + split; [|cbn; rewrite Htruthy; naive_solver]. intros Hnone.
      apply (generating_returned _ (new_SchemaModel svc parser raw "" options)
               parser) in Hnone as (m & [=] & _).
      unfold Generating. cbn.
      by rewrite Hexamples, Hexample, Hname, Hraw, Htruthy.
    + unfold examples. cbn.
      rewrite Hexamples, Hexample, Hname, Hraw, Htruthy. naive_solver.
    + unfold examples. cbn. rewrite Hexamples, Hexample, Hname, Hraw.
      naive_solver.
  - unfold examples. cbn. rewrite Hexamples, Hexample, Hname. naive_solver.
Qed.

(** X14. Whenever a read in the state Generating returns, it returns a map:
    its keys are the titles of the variants of the root, but for the title
    __proto__, when the root has variants, and the key default alone
    otherwise; each of its artifacts carries the name and the encoding of
    the media type. So the map is empty exactly when every variant of a root
    with variants is titled __proto__. *)
Theorem generated_examples_when_returned this root parser result :
  Generating this root parser →
  outcome (examples svc this) = Returned result →
  ∃ m,
    result = Some m ∧
    dom m
    = (if has_variants root
       then list_to_set (title <$> default [] (oneOf root)) ∖ {[ "__proto__" ]}
       else {[ "default" ]}) ∧
    (∀ k e, m !! k = Some e →
            mime e = name this ∧ encoding e = _encoding this) ∧
    (m = ∅ ↔
     has_variants root = true ∧
     ∀ v, v ∈ default [] (oneOf root) → title v = "__proto__").
Proof.
  intros Hgen Hrun.
  destruct (generating_returned this root parser result Hgen Hrun)
    as (m & -> & Hdom & Hentries).
  exists m. split; [done|]. split; [done|]. split; [done|].
  rewrite <- (dom_empty_iff_L (D := gset string)), Hdom.
  destruct (has_variants root).
  - split.
    + intros Hempty. split; [done|]. intros v Hv.
      destruct (decide (title v = "__proto__")) as [|Hne]; [done|].
      assert (title v ∈ (∅ : gset string)) as []%elem_of_empty.
      rewrite <- Hempty, elem_of_difference, elem_of_list_to_set,
        elem_of_singleton.
      split; [|done]. apply list_elem_of_fmap. by exists v.
    + intros [_ Hall]. apply set_eq. intros t.
      rewrite elem_of_difference, elem_of_list_to_set, elem_of_singleton,
        list_elem_of_fmap.
      split; [|by intros ?%elem_of_empty].
      intros [(v & -> & Hv) Hne]. destruct Hne. by apply Hall.
  - split; [|by intros [[=] _]].
    intros Hempty. assert ("default" ∈ (∅ : gset string)) as []%elem_of_empty.
    rewrite <- Hempty. by apply elem_of_singleton.
Qed.

(** X15. The write of the root discriminator returns the sample as it is
    when the root has no discriminator property, or an empty one, or the
    sample is neither an object nor an array. Into a plain object it
    returns, and changes no other property. Into an array it changes no
    element unless the property is an index or length. It raises exactly
    when the sample is an array, the property is length and the title of the
    variant converts to no length of an array, and it raises a
    RangeError. *)
Theorem set_root_discriminator_keeps root subSchema sample :
  (truthy (discriminatorProp root) = None ∨ is_object sample = false →
   set_root_discriminator svc root subSchema sample = Returned sample) ∧
  (∀ ps,
     sample = JObj ps →
     ∃ ps',
       set_root_discriminator svc root subSchema sample
       = Returned (JObj ps') ∧
       ∀ k, truthy (discriminatorProp root) ≠ Some k →
            props_get ps' k = props_get ps k) ∧
  (∀ xs own prop,
     sample = JArr xs own →
     truthy (discriminatorProp root) = Some prop →
     array_index prop = None → prop ≠ "length" →
     ∃ own',
       set_root_discriminator svc root subSchema sample
       = Returned (JArr xs own') ∧
       ∀ k, k ≠ prop → props_get own' k = props_get own k) ∧
  (∀ e,
     set_root_discriminator svc root subSchema sample = Thrown e ↔
     e = "RangeError: Invalid array length" ∧
     (∃ xs own, sample = JArr xs own) ∧
     truthy (discriminatorProp root) = Some "length" ∧
     ToArrayLength svc (title subSchema) = None).
Proof.
  unfold set_root_discriminator. split; [|split; [|split]].
  - intros [-> | ->]; [done|]. by destruct (truthy _).
  - intros ps ->. cbn [is_object set_member].
    destruct (truthy (discriminatorProp root)) as [prop|]; eexists;
      (split; [reflexivity|]); [|done].
    intros k Hk. apply props_get_own_put_ne. congruence.
  - intros xs own prop -> -> Hindex Hlength. cbn [is_object set_member].
    rewrite Hindex, decide_False by done.
    eexists. split; [reflexivity|].
    intros k Hk. by apply props_get_own_put_ne.
  - intros e. split.
    + destruct (truthy (discriminatorProp root)) as [prop|]; [|done].
      destruct sample as [| | | | |xs own|ps]; try done.
      cbn [is_object set_member].
      destruct (array_index prop); [done|].
      destruct (decide (prop = "length")) as [->|]; [|done].
      destruct (ToArrayLength svc (title subSchema)) eqn:Hlength; [done|].
      intros [= <-]. by eauto 10.
    + intros (-> & (xs & own & ->) & -> & Hnone).
      cbn [is_object set_member]. by rewrite Hnone.
Qed.

(** X16. When, for a variant of the root, the sampler raises, or the write
    of the root discriminator does, a read has made the rounds of the
    variants before it in full, has resolved and sampled that variant
    without a call to the patcher for it, and has made no call for the
    variants after it; it raises what was raised. *)
Theorem fan_out_stops_at_first_error this root parser before v after e
    (sample_of written : SchemaModel → Json) :
  Generating this root parser →
  oneOf root = Some (before ++ v :: after) →
  (∀ w, w ∈ before → sampled svc this parser w = Returned (sample_of w)) →
  (∀ w, w ∈ before →
        set_root_discriminator svc root w (sample_of w)
        = Returned (written w)) →
  sampled svc this parser v = Thrown e
  ∨ (∃ sample, sampled svc this parser v = Returned sample ∧
               set_root_discriminator svc root v sample = Thrown e) →
  examples svc this
  = (EvCollect root
       :: concat ((λ w, variant_calls svc this parser w (written w))
                    <$> before)
       ++ [EvResolve v;
           EvSample (getSchemaWithActiveDiscriminators svc v)
             (samplerOptions this) (spec parser)],
     Thrown e).
Proof.
  intros Hgen Hone Hbefore Hwrite Hv.
  pose proof Hgen as (_ & _ & Hschema & Hparser).
  rewrite (examples_generating svc this root parser Hgen).
  by rewrite (generateExamples_fan_out_thrown svc this root parser before v
                after e sample_of written).
Qed.

End MoreOnExamples.

(** * The further properties on the fixtures *)

Lemma generated_examples_when_returned_witness :
  ∃ m,
    outcome (examples fixture (media_type_of (Some Orphan)))
    = Returned (Some m) ∧
    dom m = {[ "Cat" ]} ∧
    ∀ k e, m !! k = Some e → mime e = "application/json".
Proof.
  destruct (generated_examples_when_returned fixture
              (media_type_of (Some Orphan)) Orphan fixture_parser
              (match outcome (examples fixture (media_type_of (Some Orphan)))
               with Returned m => m | Thrown _ => None end))
    as (m & Hm & Hdom & Hall & _).
  - apply generating_fixture.
  - reflexivity.
  - exists m. split; [by rewrite <- Hm|]. split.
    + rewrite Hdom. by vm_compute.
    + intros k e Hk. by destruct (Hall k e Hk) as [-> _].
Defined.

Lemma fan_out_stops_at_first_error_witness :
  examples fixture (media_type_of (Some Brittle))
  = (EvCollect Brittle
       :: variant_calls fixture (media_type_of (Some Brittle)) fixture_parser
            Cat (JObj [("petType", JStr "Cat");
                       ("huntingSkill", JStr "string")])
       ++ [EvResolve (leaf "Unsupported");
           EvSample (spec_resolve (leaf "Unsupported"))
             (samplerOptions (media_type_of (Some Brittle)))
             (spec fixture_parser)],
     Thrown "unsupported construct") ∧
  examples fixture (media_type_of (Some Lengths))
  = ([EvCollect Lengths;
      EvResolve (mkSchemaModel "Names" None None 0 [] (Some (leaf "name")));
      EvSample
        (spec_resolve
           (mkSchemaModel "Names" None None 0 [] (Some (leaf "name"))))
        (samplerOptions (media_type_of (Some Lengths)))
        (spec fixture_parser)],
     Thrown "RangeError: Invalid array length").
Proof.
  split.
  - rewrite (fan_out_stops_at_first_error fixture
               (media_type_of (Some Brittle)) Brittle fixture_parser [Cat]
               (leaf "Unsupported") [Dog] "unsupported construct"
               (λ v, fixture_value (spec_resolve v))
               (λ v, JObj [("petType", JStr "Cat");
                           ("huntingSkill", JStr "string")])).
    + reflexivity.
    + apply generating_fixture.
    + reflexivity.
    + intros w ->%list_elem_of_singleton. reflexivity.
    + intros w ->%list_elem_of_singleton. reflexivity.
    + by left.
  - rewrite (fan_out_stops_at_first_error fixture
               (media_type_of (Some Lengths)) Lengths fixture_parser []
               (mkSchemaModel "Names" None None 0 [] (Some (leaf "name"))) []
               "RangeError: Invalid array length"
               (λ v, JUndefined) (λ v, JUndefined)).
    + reflexivity.
    + apply generating_fixture.
    + reflexivity.
    + by intros w ?%elem_of_nil.
    + by intros w ?%elem_of_nil.
    + right. by eexists.
Defined.

(** The collapsible elements of the rendered tree. *)
Lemma rendered_collapsibles :
  querySelectorAll (by_class "collapsible" rendered) rendered []
  = [[1; 0]; [3; 0; 0; 1; 0]; [3; 0; 1; 1; 0]; [1; 0; 1; 3; 0; 1; 1; 0]].
Proof. reflexivity. Qed.

Lemma collect_after_restore_witness :
  "tags" ∈ collectExpandedPaths
             (restoreExpandedPaths rendered (Some []) {[ "tags" ]}) (Some []).
Proof.
  apply collect_after_restore. right.
  split; [by apply elem_of_singleton|]. split; [done|].
  exists [3; 0; 1; 1; 0]. split; [|reflexivity].
  rewrite rendered_collapsibles. repeat constructor.
Defined.

Lemma restore_of_collected_witness :
  collapsed_at
    (restoreExpandedPaths rendered (Some [])
       (collectExpandedPaths rendered (Some []))) [0; 1; 1; 0]
  = true.
Proof.
  rewrite restore_of_collected; [reflexivity|].
  rewrite rendered_collapsibles. intros q1 q2 H1 H2.
  repeat (apply elem_of_cons in H1 as [->|H1]);
    [..|by apply elem_of_nil in H1];
    repeat (apply elem_of_cons in H2 as [->|H2]);
    try (by apply elem_of_nil in H2);
    intros Hpath Hne; first [reflexivity|discriminate Hpath|by destruct Hne].
Defined.

Lemma expandAll_expands_witness :
  "tags.[1]" ∈ collectExpandedPaths (expandAll rendered (Some [])).1 (Some [])
  ∧ collapsed_at (expandAll rendered (Some [])).1 [0; 1; 1; 0] = false.
Proof.
  destruct (expandAll_expands rendered []) as [Hstate Hpaths]; [reflexivity|].
  split.
  - apply (proj2 (Hpaths "tags.[1]")). split; [done|]. exists [1; 0; 1; 3; 0; 1; 1; 0].
    split; [|reflexivity]. rewrite rendered_collapsibles. repeat constructor.
  - apply not_true_is_false. intros Hc.
    apply (proj1 (Hstate _)) in Hc as [_ Hnone].
    apply (Hnone [3; 0; 1; 1; 0]); [|reflexivity].
    rewrite rendered_collapsibles. repeat constructor.
Defined.

Lemma collapseAll_collapses_witness :
  collapsed_at (collapseAll rendered (Some [])).1 [0; 0; 1; 0] = true.
Proof.
  destruct (collapseAll_collapses rendered []) as [Hstate _]; [reflexivity|].
  apply Hstate. right. exists [3; 0; 0; 1; 0]. split; [|reflexivity].
  rewrite rendered_collapsibles. repeat constructor.
Defined.

Lemma collapseElement_twice_witness :
  ∃ doc2,
    collapseElement (collapseElement rendered [2; 0; 0; 1; 0]).1
      [2; 0; 0; 1; 0]
    = (doc2, Returned ()) ∧
    collapsed_at doc2 [0; 0; 1; 0] = false.
Proof.
  destruct (collapseElement_twice rendered [2; 0; 0; 1; 0]
              (collapseElement rendered [2; 0; 0; 1; 0]).1)
    as (doc2 & Hrun & Hstate).
  - reflexivity.
  - reflexivity.
  - intros parent collapsed [= <-] [= <-]. discriminate.
  - exists doc2. split; [exact Hrun|]. by rewrite Hstate.
Defined.
